(** * User price alerts: the alert store and the notification dispatcher

    A shallow embedding of
      - [UserAlertsState] (user-price-alerts/state.ts): the alert store, its
        change events, the sorted [alerts()] view, export and import;
      - [AlertNotification] (user-price-alerts/alert-notification.ts): the
        toast dispatcher with its notification map, timer map and the
        browser's pending timers;
    and of the scalar trigger evaluator, which is described by the
    specification only.

    Conventions.  A JavaScript [Map] is an insertion-ordered association list
    ([JsMap]).  Alert objects are mutable and shared between the store's map
    and the array returned by [alerts()], so they live in a heap and both
    containers hold references.  A price is a JavaScript number: NaN, or a
    number that is not NaN, written as an integer.  [Math.random] and
    [Date.now] are inputs of the operations that call them. *)

From Stdlib Require Import List ZArith NArith String Ascii Bool Lia Arith.
From Stdlib Require Import Permutation Sorted.
Import ListNotations.

(* ===================================================================== *)
(** ** JavaScript [Map<string, V>]: association list in insertion order *)
(* ===================================================================== *)

Module JsMap.
Section Defs.
Context {V : Type}.

Definition t := list (string * V).

Definition empty : t := [].

Fixpoint get (k : string) (m : t) : option V :=
  match m with
  | [] => None
  | (k', v) :: m' => if String.eqb k k' then Some v else get k m'
  end.

Definition has (k : string) (m : t) : bool :=
  match get k m with Some _ => true | None => false end.

(** [set] overwrites in place when the key exists and appends otherwise. *)
Fixpoint set (k : string) (v : V) (m : t) : t :=
  match m with
  | [] => [(k, v)]
  | (k', v') :: m' =>
      if String.eqb k k' then (k', v) :: m' else (k', v') :: set k v m'
  end.

Fixpoint delete (k : string) (m : t) : t :=
  match m with
  | [] => []
  | (k', v') :: m' =>
      if String.eqb k k' then m' else (k', v') :: delete k m'
  end.

Definition keys (m : t) : list string := map fst m.
Definition values (m : t) : list V := map snd m.
Definition size (m : t) : nat := List.length m.
End Defs.
Arguments t : clear implicits.
End JsMap.

(* ===================================================================== *)
(** ** The data model of state.ts *)
(* ===================================================================== *)

(** A JavaScript number, as far as prices go: [NaN], or a number that is not
    NaN, written as an integer.  [typeof NaN] is ['number'], so the store
    takes NaN wherever it takes a price. *)
Inductive number :=
| NaN
| Num (z : Z).

Coercion Num : Z >-> number.
Bind Scope Z_scope with number.

(** [a - b]: NaN as soon as one operand is. *)
Definition number_sub (a b : number) : number :=
  match a, b with
  | Num x, Num y => Num (x - y)
  | _, _ => NaN
  end.

(** [a < b], [a <= b] and [a === b]: false as soon as one operand is NaN. *)
Definition number_ltb (a b : number) : bool :=
  match a, b with
  | Num x, Num y => (x <? y)%Z
  | _, _ => false
  end.

Definition number_le (a b : number) : Prop :=
  match a, b with
  | Num x, Num y => (x <= y)%Z
  | _, _ => False
  end.

Definition number_eqb (a b : number) : bool :=
  match a, b with
  | Num x, Num y => (x =? y)%Z
  | _, _ => false
  end.

Inductive AlertCondition :=
| crossing | crossing_up | crossing_down
| entering | exiting | inside | outside.

Inductive AlertType := TypePrice | TypeTool.

Inductive PricePosition := above | below | unknown.

Inductive WebhookMode := openalgo | custom.
Inductive OrderAction := BUY | SELL.
Inductive OrderProduct := MIS | CNC | NRML.
Inductive OrderPricetype := MARKET | LIMIT.

Record AlertNotificationSettings := {
  showToast : bool;
  playSound : bool;
  webhookEnabled : bool;
  webhookUrl : option string;
  webhookMode : option WebhookMode;
  openalgoAction : option OrderAction;
  openalgoProduct : option OrderProduct;
  openalgoQuantity : option Z;
  openalgoPricetype : option OrderPricetype;
  message : option string
}.

Definition DEFAULT_NOTIFICATION_SETTINGS : AlertNotificationSettings := {|
  showToast := true;
  playSound := true;
  webhookEnabled := false;
  webhookUrl := None;
  webhookMode := Some openalgo;
  openalgoAction := Some BUY;
  openalgoProduct := Some MIS;
  openalgoQuantity := Some 1%Z;
  openalgoPricetype := Some MARKET;
  message := Some "{{symbol}} {{condition}} {{price}}"%string
|}.

(** A [LineTool] is an opaque handle on a drawing owned by the chart. *)
Definition LineTool := nat.

Record UserAlertInfo := {
  id : string;
  price : number;
  condition : option AlertCondition;
  type : option AlertType;
  toolRef : option LineTool;
  initialPricePosition : option PricePosition;
  notifications : option AlertNotificationSettings;
  symbol : option string;
  exchange : option string
}.

Record SerializableAlert := {
  s_id : string;
  s_price : number;
  s_condition : AlertCondition;
  s_type : AlertType;
  s_createdAt : Z;
  s_notifications : option AlertNotificationSettings;
  s_symbol : option string;
  s_exchange : option string
}.

(** What [importAlerts] receives is parsed JSON, checked dynamically: the
    fields it tests are kept as untyped values. *)
Inductive JsValue :=
| JsUndefined
| JsNull
| JsBool (b : bool)
| JsNumber (n : number)
| JsString (s : string).

Definition truthy (v : JsValue) : bool :=
  match v with
  | JsUndefined | JsNull => false
  | JsBool b => b
  | JsNumber NaN => false
  | JsNumber (Num n) => negb (Z.eqb n 0)
  | JsString s => negb (String.eqb s "")
  end.

Definition typeof_number (v : JsValue) : bool :=
  match v with JsNumber _ => true | _ => false end.

Record ImportRecord := {
  i_id : option string;           (* None: the field is missing *)
  i_price : JsValue;
  i_condition : option AlertCondition;
  i_triggered : JsValue;          (* JsUndefined: the field is missing *)
  i_notifications : option AlertNotificationSettings;
  i_symbol : option string;
  i_exchange : option string
}.

(** The argument of [importAlerts] as its declared type [SerializableAlert[]]
    has it: an array whose elements are all objects.  [UntypedImport] below
    takes the elements as parsed JSON can give them. *)
Inductive ImportArg :=
| NotAnArray
| ArrayOf (records : list ImportRecord).

(** An element of a parsed JSON array: an object, or a value that is not
    one. *)
Inductive ImportElement :=
| ElemValue (v : JsValue)
| ElemObject (rec : ImportRecord).

(* ===================================================================== *)
(** ** [UserAlertsState]: the alert store *)
(* ===================================================================== *)

(** A reference to an alert object: its index in the heap of objects. *)
Definition ref := nat.

(** The four delegates of the store.  [AlertAdded] and [AlertChanged] carry
    the alert object, [AlertRemoved] the id, [AlertsChanged] nothing. *)
Inductive Event :=
| AlertAdded (a : ref)
| AlertRemoved (alertId : string)
| AlertChanged (a : ref)
| AlertsChanged.

Record UserAlertsState := {
  objects : list UserAlertInfo;    (* the alert objects ever allocated *)
  _alerts : JsMap.t ref;           (* Map<string, UserAlertInfo> *)
  _alertsArray : list ref;         (* UserAlertInfo[] *)
  listening : bool;                (* the constructor's own subscription to
                                      _alertsChanged is still in place *)
  fired : list Event               (* every event fired, oldest first *)
}.

Definition deref (st : UserAlertsState) (r : ref) : option UserAlertInfo :=
  nth_error (objects st) r.

(** [a.price] for the object behind a reference. *)
Definition price_at (objs : list UserAlertInfo) (r : ref) : number :=
  match nth_error objs r with
  | Some a => price a
  | None => Num 0
  end.

(** *** [Array.prototype.sort] with a comparator

    The sort is stable (ECMAScript 2019), and a stable sort has one possible
    result for a comparator that is a total preorder: insertion from the right
    computes it.  [x] goes before [y] unless [cmp x y > 0]; a comparator
    result that is NaN counts as 0.  When the comparator is not consistent
    (here: when a price is NaN) the standard leaves the order to the
    engine: [sort] then returns one of the orders an engine may produce, and
    no property below says which. *)
Definition compare_result (v : number) : Z :=
  match v with
  | NaN => 0
  | Num z => z
  end.

Section Sort.
Context {A : Type} (cmp : A -> A -> number).

Fixpoint sort_insert (x : A) (l : list A) : list A :=
  match l with
  | [] => [x]
  | y :: l' =>
      if (compare_result (cmp x y) <=? 0)%Z
      then x :: y :: l' else y :: sort_insert x l'
  end.

Definition sort (l : list A) : list A := fold_right sort_insert [] l.
End Sort.

(** The comparator of [_updateAlertsArray]: [(a, b) => b.price - a.price]. *)
Definition by_price_desc (objs : list UserAlertInfo) (a b : ref) : number :=
  number_sub (price_at objs b) (price_at objs a).

Definition _updateAlertsArray (st : UserAlertsState) : UserAlertsState :=
  {| objects := objects st;
     _alerts := _alerts st;
     _alertsArray := sort (by_price_desc (objects st)) (JsMap.values (_alerts st));
     listening := listening st;
     fired := fired st |}.

(** Modelled from the spec: [Delegate.fire] (helpers/delegate is not part of
    the sources).  A delegate is an observer list with
    subscribe/unsubscribe-by-owner; firing it calls the subscribed listeners.
    Listeners outside the store are represented by the log [fired]. *)
Definition fire (e : Event) (st : UserAlertsState) : UserAlertsState :=
  {| objects := objects st;
     _alerts := _alerts st;
     _alertsArray := _alertsArray st;
     listening := listening st;
     fired := fired st ++ [e] |}.

(** [_alertsChanged.fire()]: the listener subscribed by the constructor
    refreshes the array. *)
Definition fire_alertsChanged (st : UserAlertsState) : UserAlertsState :=
  let st' := fire AlertsChanged st in
  if listening st' then _updateAlertsArray st' else st'.

Definition constructor : UserAlertsState :=
  {| objects := [];
     _alerts := JsMap.empty;
     _alertsArray := [];
     listening := true;
     fired := [] |}.

(** [destroy]: [_alertsChanged.unsubscribeAll(this)]. *)
Definition destroy (st : UserAlertsState) : UserAlertsState :=
  {| objects := objects st;
     _alerts := _alerts st;
     _alertsArray := _alertsArray st;
     listening := false;
     fired := fired st |}.

Definition alerts (st : UserAlertsState) : list ref := _alertsArray st.

(** *** [Number.prototype.toString(16)] on a non-negative integer *)
Definition hex_digit (d : N) : ascii :=
  match d with
  | 0 => "0" | 1 => "1" | 2 => "2" | 3 => "3" | 4 => "4" | 5 => "5"
  | 6 => "6" | 7 => "7" | 8 => "8" | 9 => "9" | 10 => "a" | 11 => "b"
  | 12 => "c" | 13 => "d" | 14 => "e" | _ => "f"
  end%N%char.

Fixpoint to_hex_aux (fuel : nat) (n : N) (acc : string) : string :=
  let acc' := String (hex_digit (n mod 16)) acc in
  match fuel with
  | O => acc'
  | S fuel' => if (n / 16 =? 0)%N then acc' else to_hex_aux fuel' (n / 16) acc'
  end.

Definition toString16 (n : N) : string :=
  to_hex_aux (N.to_nat (N.log2 n)) n EmptyString.

(** *** [_getNewId]

    [candidates] are the successive values of
    [Math.round(Math.random() * 1000000)] that the loop would draw.  The loop
    ends at the first one whose hexadecimal form is not a key of the map; it
    does not end if none is ([None] when the list is exhausted). *)
Fixpoint _getNewId (candidates : list N) (m : JsMap.t ref) : option string :=
  match candidates with
  | [] => None
  | n :: rest =>
      let id := toString16 n in
      if JsMap.has id m then _getNewId rest m else Some id
  end.

Definition alloc (a : UserAlertInfo) (st : UserAlertsState) : ref * UserAlertsState :=
  (List.length (objects st),
   {| objects := objects st ++ [a];
      _alerts := _alerts st;
      _alertsArray := _alertsArray st;
      listening := listening st;
      fired := fired st |}).

Definition with_alerts (m : JsMap.t ref) (st : UserAlertsState) : UserAlertsState :=
  {| objects := objects st;
     _alerts := m;
     _alertsArray := _alertsArray st;
     listening := listening st;
     fired := fired st |}.

(** Assignment to fields of the object behind [r]. *)
Fixpoint update_nth {A : Type} (n : nat) (f : A -> A) (l : list A) : list A :=
  match l, n with
  | [], _ => []
  | x :: l', O => f x :: l'
  | x :: l', S n' => x :: update_nth n' f l'
  end.

Definition modify (r : ref) (f : UserAlertInfo -> UserAlertInfo)
    (st : UserAlertsState) : UserAlertsState :=
  {| objects := update_nth r f (objects st);
     _alerts := _alerts st;
     _alertsArray := _alertsArray st;
     listening := listening st;
     fired := fired st |}.

Definition set_price (p : number) (a : UserAlertInfo) : UserAlertInfo :=
  {| id := id a; price := p; condition := condition a; type := type a;
     toolRef := toolRef a; initialPricePosition := initialPricePosition a;
     notifications := notifications a; symbol := symbol a;
     exchange := exchange a |}.

Definition set_condition (c : AlertCondition) (a : UserAlertInfo) : UserAlertInfo :=
  {| id := id a; price := price a; condition := Some c; type := type a;
     toolRef := toolRef a; initialPricePosition := initialPricePosition a;
     notifications := notifications a; symbol := symbol a;
     exchange := exchange a |}.

Definition set_notifications (n : AlertNotificationSettings) (a : UserAlertInfo)
    : UserAlertInfo :=
  {| id := id a; price := price a; condition := condition a; type := type a;
     toolRef := toolRef a; initialPricePosition := initialPricePosition a;
     notifications := Some n; symbol := symbol a; exchange := exchange a |}.

(** [addAlertWithCondition]; [None] stands for a [_getNewId] that does not
    return. *)
Definition addAlertWithCondition (candidates : list N) (p : number)
    (c : AlertCondition) (st : UserAlertsState) : option (string * UserAlertsState) :=
  match _getNewId candidates (_alerts st) with
  | None => None
  | Some newId =>
      let userAlert :=
        {| id := newId; price := p; condition := Some c; type := None;
           toolRef := None; initialPricePosition := None;
           notifications := None; symbol := None; exchange := None |} in
      let '(r, st1) := alloc userAlert st in
      let st2 := with_alerts (JsMap.set newId r (_alerts st1)) st1 in
      let st3 := fire (AlertAdded r) st2 in
      Some (newId, fire_alertsChanged st3)
  end.

Definition addAlert (candidates : list N) (p : number) (st : UserAlertsState)
    : option (string * UserAlertsState) :=
  addAlertWithCondition candidates p crossing st.

Definition removeAlert (k : string) (st : UserAlertsState) : UserAlertsState :=
  if negb (JsMap.has k (_alerts st)) then st
  else
    let st1 := with_alerts (JsMap.delete k (_alerts st)) st in
    let st2 := fire (AlertRemoved k) st1 in
    fire_alertsChanged st2.

Definition updateAlertPrice (k : string) (newPrice : number)
    (st : UserAlertsState)
    : UserAlertsState :=
  match JsMap.get k (_alerts st) with
  | None => st
  | Some r =>
      let st1 := modify r (set_price newPrice) st in
      let st2 := fire (AlertChanged r) st1 in
      fire_alertsChanged st2
  end.

Definition updateAlert (k : string) (newPrice : number) (c : AlertCondition)
    (n : option AlertNotificationSettings) (st : UserAlertsState) : UserAlertsState :=
  match JsMap.get k (_alerts st) with
  | None => st
  | Some r =>
      let st1 := modify r (set_price newPrice) st in
      let st2 := modify r (set_condition c) st1 in
      let st3 := match n with
                 | Some n' => modify r (set_notifications n') st2
                 | None => st2
                 end in
      let st4 := fire (AlertChanged r) st3 in
      fire_alertsChanged st4
  end.

(** The [||] of [alert.condition || 'crossing']. *)
Definition condition_or_crossing (c : option AlertCondition) : AlertCondition :=
  match c with Some c' => c' | None => crossing end.

Definition is_tool (a : UserAlertInfo) : bool :=
  match type a with Some TypeTool => true | _ => false end.

Definition serialize (now : Z) (a : UserAlertInfo) : SerializableAlert :=
  {| s_id := id a;
     s_price := price a;
     s_condition := condition_or_crossing (condition a);
     s_type := TypePrice;
     s_createdAt := now;
     s_notifications := notifications a;
     s_symbol := symbol a;
     s_exchange := exchange a |}.

(** The loop body of [exportAlerts], over the map's entries in order. *)
Fixpoint export_entries (now : Z) (objs : list UserAlertInfo)
    (entries : JsMap.t ref) : list SerializableAlert :=
  match entries with
  | [] => []
  | (_, r) :: rest =>
      match nth_error objs r with
      | Some a =>
          if negb (is_tool a)
          then serialize now a :: export_entries now objs rest
          else export_entries now objs rest
      | None => export_entries now objs rest
      end
  end.

(** [exportAlerts]; [now] is the value of [Date.now()] during the call. *)
Definition exportAlerts (now : Z) (st : UserAlertsState) : list SerializableAlert :=
  export_entries now (objects st) (_alerts st).

(** The two [continue] tests of [importAlerts]:
    [!alertData.id || typeof alertData.price !== 'number'], then
    [alertData.triggered]. *)
Definition id_of (rec : ImportRecord) : option string :=
  match i_id rec with
  | Some s => if String.eqb s "" then None else Some s
  | None => None
  end.

Definition number_of (v : JsValue) : option number :=
  match v with JsNumber n => Some n | _ => None end.

Definition import_one (rec : ImportRecord) (st : UserAlertsState) : UserAlertsState :=
  match id_of rec, number_of (i_price rec) with
  | Some k, Some p =>
      if truthy (i_triggered rec) then st
      else
        let userAlert :=
          {| id := k; price := p;
             condition := Some (condition_or_crossing (i_condition rec));
             type := Some TypePrice;
             toolRef := None; initialPricePosition := None;
             notifications := i_notifications rec;
             symbol := i_symbol rec; exchange := i_exchange rec |} in
        let '(r, st1) := alloc userAlert st in
        with_alerts (JsMap.set k r (_alerts st1)) st1
  | _, _ => st
  end.

Definition import_loop (records : list ImportRecord) (st : UserAlertsState)
    : UserAlertsState :=
  fold_left (fun s rec => import_one rec s) records st.

Definition importAlerts (arg : ImportArg) (st : UserAlertsState) : UserAlertsState :=
  match arg with
  | NotAnArray => st
  | ArrayOf records =>
      let st1 := import_loop records st in
      if (0 <? List.length records)%nat then fire_alertsChanged st1 else st1
  end.

(** [importAlerts] on an array of arbitrary elements.  The loop reads
    [alertData.id] before any test: on [null] and [undefined] that read throws
    a [TypeError], which nothing catches, so the call ends there, with the
    records filed so far in the map and no event fired; on any other value
    that is not an object every field reads as [undefined]. *)
Module UntypedImport.

Inductive Outcome :=
| Returned (st : UserAlertsState)
| Threw (st : UserAlertsState).

Definition no_fields : ImportRecord :=
  {| i_id := None; i_price := JsUndefined; i_condition := None;
     i_triggered := JsUndefined; i_notifications := None;
     i_symbol := None; i_exchange := None |}.

(** The fields the loop reads from an element; [None]: the read throws. *)
Definition fields_of (e : ImportElement) : option ImportRecord :=
  match e with
  | ElemValue JsUndefined | ElemValue JsNull => None
  | ElemValue _ => Some no_fields
  | ElemObject rec => Some rec
  end.

Fixpoint import_loop (elements : list ImportElement) (st : UserAlertsState)
    : Outcome :=
  match elements with
  | [] => Returned st
  | e :: rest =>
      match fields_of e with
      | None => Threw st
      | Some rec => import_loop rest (import_one rec st)
      end
  end.

Definition importAlerts (elements : list ImportElement) (st : UserAlertsState)
    : Outcome :=
  match import_loop elements st with
  | Returned st1 =>
      Returned (if (0 <? List.length elements)%nat
                then fire_alertsChanged st1 else st1)
  | Threw st1 => Threw st1
  end.

(** The records that a loop over [elements] reads, when no read throws. *)
Definition records_of (elements : list ImportElement) : list ImportRecord :=
  flat_map (fun e => match fields_of e with Some rec => [rec] | None => [] end)
           elements.

End UntypedImport.

Definition clearAlerts (st : UserAlertsState) : UserAlertsState :=
  if (JsMap.size (_alerts st) =? 0)%nat then st
  else fire_alertsChanged (with_alerts JsMap.empty st).

(** Handing the result of [exportAlerts] to [importAlerts]: the same objects,
    read as untyped records. *)
Definition as_import (s : SerializableAlert) : ImportRecord :=
  {| i_id := Some (s_id s);
     i_price := JsNumber (s_price s);
     i_condition := Some (s_condition s);
     i_triggered := JsUndefined;
     i_notifications := s_notifications s;
     i_symbol := s_symbol s;
     i_exchange := s_exchange s |}.

(** *** The mutating operations as a command type *)
Inductive Op :=
| OpAddAlert (candidates : list N) (p : number)
| OpAddAlertWithCondition (candidates : list N) (p : number)
    (c : AlertCondition)
| OpRemoveAlert (k : string)
| OpUpdateAlertPrice (k : string) (p : number)
| OpUpdateAlert (k : string) (p : number) (c : AlertCondition)
    (n : option AlertNotificationSettings)
| OpImportAlerts (arg : ImportArg)
| OpClearAlerts.

Definition run_op (op : Op) (st : UserAlertsState) : option UserAlertsState :=
  match op with
  | OpAddAlert cands p => option_map snd (addAlert cands p st)
  | OpAddAlertWithCondition cands p c =>
      option_map snd (addAlertWithCondition cands p c st)
  | OpRemoveAlert k => Some (removeAlert k st)
  | OpUpdateAlertPrice k p => Some (updateAlertPrice k p st)
  | OpUpdateAlert k p c n => Some (updateAlert k p c n st)
  | OpImportAlerts arg => Some (importAlerts arg st)
  | OpClearAlerts => Some (clearAlerts st)
  end.

Fixpoint run_ops (ops : list Op) (st : UserAlertsState) : option UserAlertsState :=
  match ops with
  | [] => Some st
  | op :: rest =>
      match run_op op st with
      | Some st' => run_ops rest st'
      | None => None
      end
  end.

(** The events an operation fired: what it appended to the log. *)
Definition events_since (before after : UserAlertsState) : list Event :=
  skipn (List.length (fired before)) (fired after).

(** The alert objects held by the store, in map order. *)
Definition stored (st : UserAlertsState) : list UserAlertInfo :=
  flat_map (fun r => match deref st r with Some a => [a] | None => [] end)
           (JsMap.values (_alerts st)).

(* ===================================================================== *)
(** ** The scalar trigger evaluator *)
(* ===================================================================== *)

Module Evaluator.
Section Scalar.
(** The position given to a price equal to the threshold; the
    specification leaves it open. *)
Variable at_threshold : PricePosition.

(** What the evaluator keeps for an alert: the alert itself (with its
    [initialPricePosition]) and the last known position, absent until the
    first evaluation. *)
Record Tracked := {
  info : UserAlertInfo;
  lastPosition : option PricePosition
}.

Definition created (a : UserAlertInfo) : Tracked :=
  {| info := a; lastPosition := None |}.

Definition position_of (current : Z) (threshold : number) : PricePosition :=
  if number_ltb threshold (Num current) then above
  else if number_ltb (Num current) threshold then below
  else at_threshold.

Definition is_scalar (c : AlertCondition) : bool :=
  match c with
  | crossing | crossing_up | crossing_down => true
  | _ => false
  end.

(** The transitions on which a condition fires: [crossing] on any,
    [crossing_up] on low to high, [crossing_down] on high to low. *)
Definition transition_matches (c : AlertCondition) (prev now : PricePosition)
    : bool :=
  match c, prev, now with
  | crossing, below, above => true
  | crossing, above, below => true
  | crossing_up, below, above => true
  | crossing_down, above, below => true
  | _, _, _ => false
  end.

Definition set_initial (p : PricePosition) (a : UserAlertInfo) : UserAlertInfo :=
  {| id := id a; price := price a; condition := condition a; type := type a;
     toolRef := toolRef a; initialPricePosition := Some p;
     notifications := notifications a; symbol := symbol a;
     exchange := exchange a |}.

(** Modelled from the spec: the per-tick evaluation of a scalar alert
    (section 4.2); the evaluator's code is not part of the sources, which
    only declare the field [initialPricePosition].  The first evaluation
    records the position and emits nothing; later ones emit a trigger on a
    transition that matches the condition and then force
    [initialPricePosition] to [unknown].  The result is the new tracking
    state and whether a trigger event is emitted. *)
Definition evaluate (current : Z) (t : Tracked) : Tracked * bool :=
  let a := info t in
  let pos := position_of current (price a) in
  match lastPosition t with
  | None =>
      ({| info := set_initial pos a; lastPosition := Some pos |}, false)
  | Some prev =>
      if transition_matches (condition_or_crossing (condition a)) prev pos
      then ({| info := set_initial unknown a; lastPosition := Some pos |}, true)
      else ({| info := a; lastPosition := Some pos |}, false)
  end.

(** The side of the threshold on which a condition is already met. *)
Definition trigger_side (c : AlertCondition) (p : PricePosition) : bool :=
  match c, p with
  | crossing, (above | below) => true
  | crossing_up, above => true
  | crossing_down, below => true
  | _, _ => false
  end.
End Scalar.
End Evaluator.

(* ===================================================================== *)
(** ** [AlertNotification]: the notification dispatcher *)
(* ===================================================================== *)

Module AlertNotification.

(** A DOM element, by identity. *)
Definition node := nat.

Inductive Direction := up | down.

Record AlertNotificationData := {
  alertId : string;
  d_symbol : string;
  d_exchange : option string;
  d_price : string;
  numericPrice : option Z;
  closePrice : option Z;
  timestamp : Z;
  direction : Direction;
  d_condition : AlertCondition;
  notificationSettings : option AlertNotificationSettings
}.

(** The closures handed to [setTimeout], as data. *)
Inductive Callback :=
| AutoDismiss (alert : string)
    (* show: () => { _dismissTimeouts.delete(id); this.dismiss(id) } *)
| RemoveNotification (n : node) (alert : string)
    (* dismiss: detach [n] from its parent, _notifications.delete(id) *)
| FadeResultToast (toast : node)
    (* _showWebhookResultToast: fade, then setTimeout(remove, 300) *)
| RemoveResultToast (toast : node).
    (* () => toast.remove() *)

Record Timer := {
  handle : nat;
  due : Z;
  callback : Callback
}.

Record t := {
  _container : option node;          (* HTMLElement | null *)
  _manager : option nat;             (* LineToolManager | null *)
  _notifications : JsMap.t node;     (* Map<string, HTMLElement> *)
  _dismissTimeouts : JsMap.t nat;    (* Map<string, number> *)
  (* the document *)
  container_in_body : bool;          (* the container is a child of body *)
  container_children : list node;    (* the container's child elements *)
  dismissing : list node;            (* elements with class 'dismissing' *)
  body_toasts : list (node * nat);   (* result toasts in body, each with the
                                        timer its close button clears *)
  (* the window *)
  timers : list Timer;               (* pending timeouts *)
  next_handle : nat;
  next_node : node;
  clock : Z;                         (* milliseconds *)
  alarms : nat;                      (* calls of _playAlarm *)
  webhooks : nat                     (* webhook requests in flight *)
}.

Definition new (manager : nat) : t :=
  {| _container := Some O;
     _manager := Some manager;
     _notifications := JsMap.empty;
     _dismissTimeouts := JsMap.empty;
     container_in_body := true;
     container_children := [];
     dismissing := [];
     body_toasts := [];
     timers := [];
     next_handle := 1;
     next_node := 1;
     clock := 0;
     alarms := 0;
     webhooks := 0 |}.

(** [setTimeout]: handles are positive and never reused. *)
Definition setTimeout (cb : Callback) (delay : Z) (d : t) : nat * t :=
  (next_handle d,
   {| _container := _container d; _manager := _manager d;
      _notifications := _notifications d;
      _dismissTimeouts := _dismissTimeouts d;
      container_in_body := container_in_body d;
      container_children := container_children d;
      dismissing := dismissing d; body_toasts := body_toasts d;
      timers := timers d ++
                [{| handle := next_handle d; due := (clock d + delay)%Z;
                    callback := cb |}];
      next_handle := S (next_handle d);
      next_node := next_node d; clock := clock d;
      alarms := alarms d; webhooks := webhooks d |}).

Definition clearTimeout (h : nat) (d : t) : t :=
  {| _container := _container d; _manager := _manager d;
     _notifications := _notifications d;
     _dismissTimeouts := _dismissTimeouts d;
     container_in_body := container_in_body d;
     container_children := container_children d;
     dismissing := dismissing d; body_toasts := body_toasts d;
     timers := filter (fun tm => negb (handle tm =? h)%nat) (timers d);
     next_handle := next_handle d;
     next_node := next_node d; clock := clock d;
     alarms := alarms d; webhooks := webhooks d |}.

Definition with_notifications (m : JsMap.t node) (d : t) : t :=
  {| _container := _container d; _manager := _manager d;
     _notifications := m;
     _dismissTimeouts := _dismissTimeouts d;
     container_in_body := container_in_body d;
     container_children := container_children d;
     dismissing := dismissing d; body_toasts := body_toasts d;
     timers := timers d; next_handle := next_handle d;
     next_node := next_node d; clock := clock d;
     alarms := alarms d; webhooks := webhooks d |}.

Definition with_dismissTimeouts (m : JsMap.t nat) (d : t) : t :=
  {| _container := _container d; _manager := _manager d;
     _notifications := _notifications d;
     _dismissTimeouts := m;
     container_in_body := container_in_body d;
     container_children := container_children d;
     dismissing := dismissing d; body_toasts := body_toasts d;
     timers := timers d; next_handle := next_handle d;
     next_node := next_node d; clock := clock d;
     alarms := alarms d; webhooks := webhooks d |}.

Definition with_children (c : list node) (d : t) : t :=
  {| _container := _container d; _manager := _manager d;
     _notifications := _notifications d;
     _dismissTimeouts := _dismissTimeouts d;
     container_in_body := container_in_body d;
     container_children := c;
     dismissing := dismissing d; body_toasts := body_toasts d;
     timers := timers d; next_handle := next_handle d;
     next_node := next_node d; clock := clock d;
     alarms := alarms d; webhooks := webhooks d |}.

Definition with_dismissing (c : list node) (d : t) : t :=
  {| _container := _container d; _manager := _manager d;
     _notifications := _notifications d;
     _dismissTimeouts := _dismissTimeouts d;
     container_in_body := container_in_body d;
     container_children := container_children d;
     dismissing := c; body_toasts := body_toasts d;
     timers := timers d; next_handle := next_handle d;
     next_node := next_node d; clock := clock d;
     alarms := alarms d; webhooks := webhooks d |}.

Definition with_body_toasts (b : list (node * nat)) (d : t) : t :=
  {| _container := _container d; _manager := _manager d;
     _notifications := _notifications d;
     _dismissTimeouts := _dismissTimeouts d;
     container_in_body := container_in_body d;
     container_children := container_children d;
     dismissing := dismissing d; body_toasts := b;
     timers := timers d; next_handle := next_handle d;
     next_node := next_node d; clock := clock d;
     alarms := alarms d; webhooks := webhooks d |}.

(** [document.createElement]: a fresh element. *)
Definition createElement (d : t) : node * t :=
  (next_node d,
   {| _container := _container d; _manager := _manager d;
      _notifications := _notifications d;
      _dismissTimeouts := _dismissTimeouts d;
      container_in_body := container_in_body d;
      container_children := container_children d;
      dismissing := dismissing d; body_toasts := body_toasts d;
      timers := timers d; next_handle := next_handle d;
      next_node := S (next_node d); clock := clock d;
      alarms := alarms d; webhooks := webhooks d |}).

Definition _playAlarm (d : t) : t :=
  {| _container := _container d; _manager := _manager d;
     _notifications := _notifications d;
     _dismissTimeouts := _dismissTimeouts d;
     container_in_body := container_in_body d;
     container_children := container_children d;
     dismissing := dismissing d; body_toasts := body_toasts d;
     timers := timers d; next_handle := next_handle d;
     next_node := next_node d; clock := clock d;
     alarms := S (alarms d); webhooks := webhooks d |}.

(** [_sendWebhook] up to its [await]: the request is in flight. *)
Definition _sendWebhook (d : t) : t :=
  {| _container := _container d; _manager := _manager d;
     _notifications := _notifications d;
     _dismissTimeouts := _dismissTimeouts d;
     container_in_body := container_in_body d;
     container_children := container_children d;
     dismissing := dismissing d; body_toasts := body_toasts d;
     timers := timers d; next_handle := next_handle d;
     next_node := next_node d; clock := clock d;
     alarms := alarms d; webhooks := S (webhooks d) |}.

Definition remove_node (n : node) (l : list node) : list node :=
  filter (fun x => negb (x =? n)%nat) l.

(** [dismiss(alertId)] *)
Definition dismiss (k : string) (d : t) : t :=
  let d1 :=
    match JsMap.get k (_dismissTimeouts d) with
    | Some timeoutId =>
        if (timeoutId =? 0)%nat then d
        else
          let d' := clearTimeout timeoutId d in
          with_dismissTimeouts (JsMap.delete k (_dismissTimeouts d')) d'
    | None => d
    end in
  match JsMap.get k (_notifications d1) with
  | Some notification =>
      let d2 := with_dismissing (notification :: dismissing d1) d1 in
      snd (setTimeout (RemoveNotification notification k) 300 d2)
  | None => d1
  end.

(** [show(data)] *)
Definition show (data : AlertNotificationData) (d : t) : t :=
  match _container d with
  | None => d
  | Some _ =>
      let settings := notificationSettings data in
      let wantToast :=
        match settings with Some s => showToast s | None => true end in
      let wantSound :=
        match settings with Some s => playSound s | None => true end in
      let sendWebhook :=
        match settings with Some s => webhookEnabled s | None => false end in
      let k := alertId data in
      let d1 :=
        if wantToast then
          let d := if JsMap.has k (_notifications d) then dismiss k d else d in
          let '(notification, d) := createElement d in
          let d := with_children (container_children d ++ [notification]) d in
          let d := with_notifications (JsMap.set k notification (_notifications d)) d in
          let '(timeoutId, d) := setTimeout (AutoDismiss k) 60000 d in
          with_dismissTimeouts (JsMap.set k timeoutId (_dismissTimeouts d)) d
        else d in
      let d2 := if wantSound then _playAlarm d1 else d1 in
      if sendWebhook then _sendWebhook d2 else d2
  end.

(** [_showWebhookResultToast]: reached when a webhook request settles. *)
Definition _showWebhookResultToast (success : bool) (d : t) : t :=
  let '(toast, d) := createElement d in
  let '(timeoutId, d) := setTimeout (FadeResultToast toast) 60000 d in
  with_body_toasts (body_toasts d ++ [(toast, timeoutId)]) d.

(** A request in flight settles (or throws): [_sendWebhook] resumes after its
    [await] and shows the result toast. *)
Definition webhook_settles (success : bool) (d : t) : t :=
  match webhooks d with
  | O => d
  | S in_flight =>
      _showWebhookResultToast success
        {| _container := _container d; _manager := _manager d;
           _notifications := _notifications d;
           _dismissTimeouts := _dismissTimeouts d;
           container_in_body := container_in_body d;
           container_children := container_children d;
           dismissing := dismissing d; body_toasts := body_toasts d;
           timers := timers d; next_handle := next_handle d;
           next_node := next_node d; clock := clock d;
           alarms := alarms d; webhooks := in_flight |}
  end.

(** The result toast's close button: [closeBtn.onclick]. *)
Definition close_result_toast (toast : node) (d : t) : t :=
  match find (fun e => (fst e =? toast)%nat) (body_toasts d) with
  | Some (_, timeoutId) =>
      snd (setTimeout (RemoveResultToast toast) 300 (clearTimeout timeoutId d))
  | None => d
  end.

(** [destroy()] *)
Definition destroy (d : t) : t :=
  let d1 :=
    fold_left (fun acc e => clearTimeout (snd e) acc) (_dismissTimeouts d) d in
  let d2 := with_dismissTimeouts JsMap.empty d1 in
  let d3 :=
    fold_left (fun acc e => dismiss (fst e) acc) (_notifications d2) d2 in
  {| _container := None; _manager := None;
     _notifications := _notifications d3;
     _dismissTimeouts := _dismissTimeouts d3;
     container_in_body := false;
     container_children := container_children d3;
     dismissing := dismissing d3; body_toasts := body_toasts d3;
     timers := timers d3; next_handle := next_handle d3;
     next_node := next_node d3; clock := clock d3;
     alarms := alarms d3; webhooks := webhooks d3 |}.

(** *** The event loop: pending timeouts come due and run *)

Definition run_callback (cb : Callback) (d : t) : t :=
  match cb with
  | AutoDismiss k =>
      dismiss k (with_dismissTimeouts (JsMap.delete k (_dismissTimeouts d)) d)
  | RemoveNotification n k =>
      let d1 := with_children (remove_node n (container_children d)) d in
      with_notifications (JsMap.delete k (_notifications d1)) d1
  | FadeResultToast toast =>
      snd (setTimeout (RemoveResultToast toast) 300 d)
  | RemoveResultToast toast =>
      with_body_toasts
        (filter (fun e => negb (fst e =? toast)%nat) (body_toasts d)) d
  end.

(** The pending timer that comes due first (the earlier call of
    [setTimeout] when two are due together). *)
Fixpoint earliest (ts : list Timer) : option Timer :=
  match ts with
  | [] => None
  | tm :: rest =>
      match earliest rest with
      | Some tm' => if (due tm' <? due tm)%Z then Some tm' else Some tm
      | None => Some tm
      end
  end.

Definition set_clock (now : Z) (d : t) : t :=
  {| _container := _container d; _manager := _manager d;
     _notifications := _notifications d;
     _dismissTimeouts := _dismissTimeouts d;
     container_in_body := container_in_body d;
     container_children := container_children d;
     dismissing := dismissing d; body_toasts := body_toasts d;
     timers := timers d; next_handle := next_handle d;
     next_node := next_node d; clock := Z.max (clock d) now;
     alarms := alarms d; webhooks := webhooks d |}.

(** One turn of the loop: the earliest pending timer fires. *)
Definition fire_next (d : t) : option (Timer * t) :=
  match earliest (timers d) with
  | Some tm =>
      Some (tm, run_callback (callback tm)
                  (set_clock (due tm) (clearTimeout (handle tm) d)))
  | None => None
  end.

(** Time passes until [now]: every timer due by then fires, in order.
    [fuel] bounds the number of timers fired. *)
Fixpoint elapse (fuel : nat) (now : Z) (d : t) : t :=
  match fuel with
  | O => d
  | S fuel' =>
      match earliest (timers d) with
      | Some tm =>
          if (due tm <=? now)%Z then
            match fire_next d with
            | Some (_, d') => elapse fuel' now d'
            | None => set_clock now d
            end
          else set_clock now d
      | None => set_clock now d
      end
  end.

(** Whether the element shown for a toast is still in the container. *)
Definition on_screen (n : node) (d : t) : bool :=
  existsb (fun x => (x =? n)%nat) (container_children d).

End AlertNotification.

(* ===================================================================== *)
(** ** Invariants of the store *)
(* ===================================================================== *)

(** Every entry of the map refers to an allocated object filed under its own
    id. *)
Definition valid_entries (st : UserAlertsState) : Prop :=
  forall k r, In (k, r) (_alerts st) ->
    exists a, nth_error (objects st) r = Some a /\ id a = k.

(** Well-formed stores: the keys are those of a [Map] (no key twice), entries
    are valid, and no id is the empty string. *)
Record wf (st : UserAlertsState) : Prop := {
  wf_keys : NoDup (JsMap.keys (_alerts st));
  wf_entries : valid_entries st;
  wf_nonempty : forall k, In k (JsMap.keys (_alerts st)) -> k <> ""%string
}.

(** The array behind [alerts()] is the sorted snapshot of the map. *)
Definition array_ok (st : UserAlertsState) : Prop :=
  _alertsArray st =
  sort (by_price_desc (objects st)) (JsMap.values (_alerts st)).

(** A store in use: its own listener is subscribed (it has not been
    destroyed) and the array is up to date. *)
Definition live (st : UserAlertsState) : Prop :=
  listening st = true /\ array_ok st.

(** The alert objects in the array returned by [alerts()]. *)
Definition alerts_view (st : UserAlertsState) : list UserAlertInfo :=
  flat_map (fun r => match deref st r with Some a => [a] | None => [] end)
           (alerts st).

(** The notification contract in the specification's words: an alert that
    enters the store is announced by [alertAdded], one that leaves it by
    [alertRemoved], each individually, and the operation fires [alertsChanged]
    exactly once. *)
Definition is_AlertsChanged (e : Event) : bool :=
  match e with AlertsChanged => true | _ => false end.

Definition notified_individually (before after : UserAlertsState) : Prop :=
  let evs := events_since before after in
  (forall k r, JsMap.has k (_alerts before) = false ->
               JsMap.get k (_alerts after) = Some r -> In (AlertAdded r) evs) /\
  (forall k, JsMap.has k (_alerts before) = true ->
             JsMap.has k (_alerts after) = false -> In (AlertRemoved k) evs) /\
  filter is_AlertsChanged evs = [AlertsChanged].

(** [s] with another [createdAt]. *)
Definition restamp (now : Z) (s : SerializableAlert) : SerializableAlert :=
  {| s_id := s_id s; s_price := s_price s; s_condition := s_condition s;
     s_type := s_type s; s_createdAt := now;
     s_notifications := s_notifications s; s_symbol := s_symbol s;
     s_exchange := s_exchange s |}.

(** A record that passes both tests of the import loop. *)
Definition importable (rec : ImportRecord) : bool :=
  match id_of rec, number_of (i_price rec) with
  | Some _, Some _ => negb (truthy (i_triggered rec))
  | _, _ => false
  end.

(** The alerts an export covers: those whose [type] is not ['tool']. *)
Definition nontool (st : UserAlertsState) : list UserAlertInfo :=
  filter (fun a => negb (is_tool a)) (stored st).

(** The object that [importAlerts] builds from the exported form of [a]. *)
Definition reimported (a : UserAlertInfo) : UserAlertInfo :=
  {| id := id a; price := price a;
     condition := Some (condition_or_crossing (condition a));
     type := Some TypePrice; toolRef := None; initialPricePosition := None;
     notifications := notifications a; symbol := symbol a;
     exchange := exchange a |}.

(** What the round trip is to preserve, alert by alert. *)
Definition same_alert (a a' : UserAlertInfo) : Prop :=
  id a' = id a /\ price a' = price a /\
  condition_or_crossing (condition a') = condition_or_crossing (condition a) /\
  (condition a <> None -> condition a' = condition a) /\
  notifications a' = notifications a /\
  symbol a' = symbol a /\ exchange a' = exchange a.

(** ** Example data *)

Definition ex_record (k : string) (p : Z) : ImportRecord :=
  {| i_id := Some k; i_price := JsNumber p; i_condition := Some crossing_up;
     i_triggered := JsUndefined;
     i_notifications := Some DEFAULT_NOTIFICATION_SETTINGS;
     i_symbol := Some "NIFTY"%string; i_exchange := Some "NSE"%string |}.

Definition ex_bad_records : list ImportRecord :=
  [ {| i_id := None; i_price := JsNumber 10; i_condition := None;
       i_triggered := JsUndefined; i_notifications := None;
       i_symbol := None; i_exchange := None |};
    {| i_id := Some "p"%string; i_price := JsString "12.5"; i_condition := None;
       i_triggered := JsUndefined; i_notifications := None;
       i_symbol := None; i_exchange := None |};
    {| i_id := Some "q"%string; i_price := JsNumber 30; i_condition := None;
       i_triggered := JsBool true; i_notifications := None;
       i_symbol := None; i_exchange := None |};
    ex_record "r" 40%Z ].

(** A store with a tool alert between two price alerts; objects of kind
    ['tool'] are filed by the chart's alert manager. *)
Definition ex_tool_store : UserAlertsState :=
  {| objects :=
       [ {| id := "a"; price := 100; condition := Some crossing_up;
            type := Some TypePrice; toolRef := None;
            initialPricePosition := Some below;
            notifications := Some DEFAULT_NOTIFICATION_SETTINGS;
            symbol := Some "NIFTY"%string; exchange := Some "NSE"%string |};
         {| id := "t"; price := 200; condition := Some crossing;
            type := Some TypeTool; toolRef := Some 7%nat;
            initialPricePosition := None; notifications := None;
            symbol := None; exchange := None |};
         {| id := "b"; price := 50; condition := Some crossing;
            type := None; toolRef := None;
            initialPricePosition := None; notifications := None;
            symbol := None; exchange := None |} ];
     _alerts := [("a"%string, 0%nat); ("t"%string, 1%nat); ("b"%string, 2%nat)];
     _alertsArray := [1%nat; 0%nat; 2%nat];
     listening := true;
     fired := [] |}.

Definition ex_ops : list Op :=
  [ OpAddAlert [10%N] 100%Z;
    OpAddAlertWithCondition [10%N; 11%N] 300%Z crossing_down;
    OpImportAlerts (ArrayOf [ex_record "c1" 200%Z; ex_record "c2" 300%Z]);
    OpUpdateAlertPrice "a" 250%Z;
    OpUpdateAlert "c1" 400%Z crossing None;
    OpRemoveAlert "c2" ].

Definition ex_store : UserAlertsState :=
  Eval vm_compute in
    match run_ops ex_ops constructor with
    | Some st => st
    | None => constructor
    end.

(** A new alert on which to run the evaluator, and a trigger event for the
    dispatcher. *)
Definition ex_alert : UserAlertInfo :=
  {| id := "a"; price := 100; condition := Some crossing_up; type := None;
     toolRef := None; initialPricePosition := None; notifications := None;
     symbol := None; exchange := None |}.

Definition ex_data : AlertNotification.AlertNotificationData :=
  {| AlertNotification.alertId := "a";
     AlertNotification.d_symbol := "NIFTY";
     AlertNotification.d_exchange := Some "NSE"%string;
     AlertNotification.d_price := "100.00";
     AlertNotification.numericPrice := Some 100%Z;
     AlertNotification.closePrice := Some 101%Z;
     AlertNotification.timestamp := 0%Z;
     AlertNotification.direction := AlertNotification.up;
     AlertNotification.d_condition := crossing_up;
     AlertNotification.notificationSettings := None |}.

(** The alert fires, and fires again while its toast is on screen. *)
Definition ex_shown_once : AlertNotification.t :=
  AlertNotification.show ex_data (AlertNotification.new 7).

Definition ex_shown_twice : AlertNotification.t :=
  AlertNotification.show ex_data ex_shown_once.

(** One live notification and one webhook result toast: the alert has its
    webhook enabled, and the request has settled. *)
Definition ex_webhook_settings : AlertNotificationSettings :=
  {| showToast := true; playSound := true; webhookEnabled := true;
     webhookUrl := None; webhookMode := Some openalgo;
     openalgoAction := Some BUY; openalgoProduct := Some MIS;
     openalgoQuantity := Some 1%Z; openalgoPricetype := Some MARKET;
     message := None |}.

Definition ex_data_webhook : AlertNotification.AlertNotificationData :=
  {| AlertNotification.alertId := "a";
     AlertNotification.d_symbol := "NIFTY";
     AlertNotification.d_exchange := Some "NSE"%string;
     AlertNotification.d_price := "100.00";
     AlertNotification.numericPrice := Some 100%Z;
     AlertNotification.closePrice := Some 101%Z;
     AlertNotification.timestamp := 0%Z;
     AlertNotification.direction := AlertNotification.up;
     AlertNotification.d_condition := crossing_up;
     AlertNotification.notificationSettings := Some ex_webhook_settings |}.

Definition ex_with_result_toast : AlertNotification.t :=
  AlertNotification.webhook_settles true
    (AlertNotification.show ex_data_webhook (AlertNotification.new 7)).

(* ===================================================================== *)
(** ** Further parts of the three files *)
(* ===================================================================== *)

(** The alert object that the loop of [importAlerts] builds from a record
    that passes its tests. *)
Definition alert_of_record (rec : ImportRecord) : UserAlertInfo :=
  {| id := match id_of rec with Some k => k | None => ""%string end;
     price := match number_of (i_price rec) with Some p => p | None => Num 0 end;
     condition := Some (condition_or_crossing (i_condition rec));
     type := Some TypePrice;
     toolRef := None; initialPricePosition := None;
     notifications := i_notifications rec;
     symbol := i_symbol rec; exchange := i_exchange rec |}.

(** Reading a hexadecimal numeral back, to compare the ids that
    [toString16] produces. *)
Definition hex_value (c : ascii) : N :=
  match c with
  | "0" => 0 | "1" => 1 | "2" => 2 | "3" => 3 | "4" => 4 | "5" => 5
  | "6" => 6 | "7" => 7 | "8" => 8 | "9" => 9 | "a" => 10 | "b" => 11
  | "c" => 12 | "d" => 13 | "e" => 14 | _ => 15
  end%char%N.

Fixpoint of_hex_from (acc : N) (s : string) : N :=
  match s with
  | EmptyString => acc
  | String c s' => of_hex_from (16 * acc + hex_value c) s'
  end.

Definition of_hex (s : string) : N := of_hex_from 0 s.

(** A store after [destroy()]. *)
Definition ex_destroyed_store : UserAlertsState := destroy ex_store.

(** *** alert-notification.ts: what [_sendWebhook] hands to
    [processAlertWebhook], and the wording of the toast *)

Module Webhook.
Section Payload.
(** [parseFloat] on the formatted price; [None] is NaN. *)
Variable parseFloat : string -> option Z.

Record AlertPayload := {
  p_symbol : string;
  p_exchange : string;
  p_price : Z;
  p_direction : AlertNotification.Direction;
  p_condition : AlertCondition;
  p_close : Z
}.

Record OpenalgoSettings := {
  o_action : OrderAction;
  o_product : OrderProduct;
  o_quantity : Z;
  o_pricetype : OrderPricetype
}.

Record WebhookConfig := {
  c_enabled : bool;
  c_mode : WebhookMode;
  c_url : option string;
  c_message : option string;
  c_openalgoSettings : option OpenalgoSettings
}.

(** [a || b] on numbers: [a] unless it is missing, NaN or 0. *)
Definition num_or (a : option Z) (b : Z) : Z :=
  match a with
  | Some n => if (n =? 0)%Z then b else n
  | None => b
  end.

(** [a || b] on strings: [a] unless it is missing or empty. *)
Definition str_or (a : option string) (b : string) : string :=
  match a with
  | Some s => if String.eqb s "" then b else s
  | None => b
  end.

Definition opt_or {A : Type} (a : option A) (b : A) : A :=
  match a with Some x => x | None => b end.

Definition alert_payload (data : AlertNotification.AlertNotificationData)
    : AlertPayload :=
  {| p_symbol := AlertNotification.d_symbol data;
     p_exchange := str_or (AlertNotification.d_exchange data) "NSE";
     p_price :=
       num_or (AlertNotification.numericPrice data)
         (num_or (parseFloat (AlertNotification.d_price data)) 0);
     p_direction := AlertNotification.direction data;
     p_condition := AlertNotification.d_condition data;
     p_close :=
       num_or (AlertNotification.closePrice data)
         (num_or (AlertNotification.numericPrice data)
            (num_or (parseFloat (AlertNotification.d_price data)) 0)) |}.

Definition webhook_config (settings : AlertNotificationSettings) : WebhookConfig :=
  {| c_enabled := webhookEnabled settings;
     c_mode := opt_or (webhookMode settings) openalgo;
     c_url := webhookUrl settings;
     c_message := message settings;
     c_openalgoSettings :=
       match opt_or (webhookMode settings) openalgo with
       | openalgo =>
           Some {| o_action := opt_or (openalgoAction settings) BUY;
                   o_product := opt_or (openalgoProduct settings) MIS;
                   o_quantity := num_or (openalgoQuantity settings) 1;
                   o_pricetype := opt_or (openalgoPricetype settings) MARKET |}
       | custom => None
       end |}.
End Payload.
End Webhook.

(** The verb of the toast's message line, in [_createNotification]. *)
Definition toast_action (c : AlertCondition) : string :=
  match c with
  | crossing_up => "Crossing Up"
  | crossing_down => "Crossing Down"
  | entering => "Entering"
  | exiting => "Exiting"
  | inside => "Inside"
  | outside => "Outside"
  | crossing => "Crossing"
  end.

(** *** alert-edit-dialog.ts: the conditions offered for a tool *)

Module AlertEditDialog.
Inductive ToolType := line | shape | vertical.

Definition condition_eqb (a b : AlertCondition) : bool :=
  match a, b with
  | crossing, crossing | crossing_up, crossing_up
  | crossing_down, crossing_down | entering, entering
  | exiting, exiting | inside, inside | outside, outside => true
  | _, _ => false
  end.

(** [list.includes(c)] *)
Definition includes (l : list AlertCondition) (c : AlertCondition) : bool :=
  existsb (condition_eqb c) l.

Definition allOptions : list (AlertCondition * string) :=
  [ (crossing, "Crossing"%string);
    (crossing_up, "Crossing Up"%string);
    (crossing_down, "Crossing Down"%string);
    (entering, "Entering"%string);
    (exiting, "Exiting"%string);
    (inside, "Inside"%string);
    (outside, "Outside"%string) ].

(** The options of the condition dropdown in [_renderSettingsTab];
    [toolType] is [this._currentData?.toolType]. *)
Definition options (toolType : option ToolType)
    : list (AlertCondition * string) :=
  match toolType with
  | Some vertical =>
      filter (fun o => condition_eqb (fst o) crossing) allOptions
  | Some shape =>
      filter (fun o => includes [entering; exiting; inside; outside] (fst o))
             allOptions
  | _ =>
      filter (fun o => includes [crossing; crossing_up; crossing_down] (fst o))
             allOptions
  end.

(** The options on which the loop sets [selected]: those whose value is the
    current condition. *)
Definition preselected (toolType : option ToolType) (current : AlertCondition)
    : list (AlertCondition * string) :=
  filter (fun o => condition_eqb (fst o) current) (options toolType).

(** [this._conditionSelect.value] once the dropdown is rendered and before
    the user touches it.  The element is a [select] without [multiple]: it
    shows the last option marked [selected], its first option when none is
    marked, and has the empty value ([None]) when it has no option. *)
Definition conditionSelect_value (toolType : option ToolType)
    (current : AlertCondition) : option AlertCondition :=
  match rev (preselected toolType current) with
  | o :: _ => Some (fst o)
  | [] =>
      match options toolType with
      | o :: _ => Some (fst o)
      | [] => None
      end
  end.

(** The [condition] that [_handleSave] passes on in that case:
    [this._conditionSelect?.value || this._currentData.condition]. *)
Definition saved_condition (toolType : option ToolType)
    (current : AlertCondition) : AlertCondition :=
  match conditionSelect_value toolType current with
  | Some c => c
  | None => current
  end.
End AlertEditDialog.

(** *** The dispatcher driven by its callers and by the event loop *)

Inductive DispatcherAction :=
| DoShow (data : AlertNotification.AlertNotificationData)
| DoDismiss (k : string)
| DoTimer                          (* the earliest pending timeout fires *)
| DoWebhookSettles (success : bool)
| DoCloseResultToast (toast : AlertNotification.node)
| DoDestroy.

Definition dispatcher_step (a : DispatcherAction) (d : AlertNotification.t)
    : AlertNotification.t :=
  match a with
  | DoShow data => AlertNotification.show data d
  | DoDismiss k => AlertNotification.dismiss k d
  | DoTimer =>
      match AlertNotification.fire_next d with
      | Some (_, d') => d'
      | None => d
      end
  | DoWebhookSettles success => AlertNotification.webhook_settles success d
  | DoCloseResultToast toast => AlertNotification.close_result_toast toast d
  | DoDestroy => AlertNotification.destroy d
  end.

Definition dispatcher_run (acts : list DispatcherAction)
    (d : AlertNotification.t) : AlertNotification.t :=
  fold_left (fun d a => dispatcher_step a d) acts d.

(** Timer handles and elements in use are older than the next ones to be
    handed out, handles are positive, and the two maps have no key twice. *)
Record dispatcher_ok (d : AlertNotification.t) : Prop := {
  ok_next : (0 < AlertNotification.next_handle d)%nat;
  ok_timers :
    Forall (fun tm => (0 < AlertNotification.handle tm
                       < AlertNotification.next_handle d)%nat)
           (AlertNotification.timers d);
  ok_tracked :
    forall k h, In (k, h) (AlertNotification._dismissTimeouts d) ->
                (0 < h < AlertNotification.next_handle d)%nat;
  ok_toasts :
    forall toast h, In (toast, h) (AlertNotification.body_toasts d) ->
                    (0 < h < AlertNotification.next_handle d)%nat /\
                    (toast < AlertNotification.next_node d)%nat;
  ok_children :
    Forall (fun n => (n < AlertNotification.next_node d)%nat)
           (AlertNotification.container_children d);
  ok_timeout_keys : NoDup (JsMap.keys (AlertNotification._dismissTimeouts d));
  ok_notification_keys : NoDup (JsMap.keys (AlertNotification._notifications d))
}.

(** [ex_store] after one more [addAlertWithCondition]; the first candidate,
    10, collides with the stored id "a". *)
Definition ex_added : string * UserAlertsState :=
  Eval vm_compute in
    match addAlertWithCondition [10%N; 12%N] 75%Z crossing_down ex_store with
    | Some r => r
    | None => (""%string, constructor)
    end.

(** The destroyed store after more operations: the map changes, the array
    does not. *)
Definition ex_ops_after_destroy : list Op :=
  [ OpClearAlerts; OpAddAlert [77%N] 5%Z; OpAddAlert [78%N] 9%Z ].

Definition ex_destroyed_later : UserAlertsState :=
  Eval vm_compute in
    match run_ops ex_ops_after_destroy ex_destroyed_store with
    | Some st => st
    | None => constructor
    end.

(** Three alerts at the same price, filed as "a", "b", "c". *)
Definition ex_ops_same_price : list Op :=
  [ OpAddAlert [10%N] 100%Z; OpAddAlert [11%N] 200%Z; OpAddAlert [12%N] 100%Z;
    OpUpdateAlertPrice "b" 100%Z ].

Definition ex_store_same_price : UserAlertsState :=
  Eval vm_compute in
    match run_ops ex_ops_same_price constructor with
    | Some st => st
    | None => constructor
    end.

(** The alert "b" is on screen with its auto-dismiss timer pending. *)
Definition ex_acts : list DispatcherAction :=
  [ DoShow ex_data_webhook; DoWebhookSettles false;
    DoShow {| AlertNotification.alertId := "b";
              AlertNotification.d_symbol := "BANKNIFTY";
              AlertNotification.d_exchange := None;
              AlertNotification.d_price := "200.00";
              AlertNotification.numericPrice := None;
              AlertNotification.closePrice := None;
              AlertNotification.timestamp := 5%Z;
              AlertNotification.direction := AlertNotification.down;
              AlertNotification.d_condition := crossing_down;
              AlertNotification.notificationSettings := None |};
    DoDismiss "a"; DoTimer ].


(** A store in which a price has become NaN: [parseFloat] of an emptied
    price field is NaN, and [updateAlert] takes it. *)
Definition ex_ops_NaN : list Op :=
  [ OpAddAlert [10%N] 100%Z; OpAddAlert [11%N] 50%Z;
    OpUpdateAlert "a" NaN crossing None ].

Definition ex_store_NaN : UserAlertsState :=
  Eval vm_compute in
    match run_ops ex_ops_NaN constructor with
    | Some st => st
    | None => constructor
    end.



(* ===================================================================== *)
(** * Properties *)
(* ===================================================================== *)

(** ** Facts about [JsMap] *)

Section JsMapFacts.
Context {V : Type}.
Implicit Types (m : JsMap.t V) (k : string) (v : V).

Lemma jsmap_has_get k m :
  JsMap.has k m = true <-> exists v, JsMap.get k m = Some v.
Proof.
  unfold JsMap.has. destruct (JsMap.get k m) as [v|].
  - split; eauto.
  - split; [discriminate | intros [v H]; discriminate].
Qed.

Lemma jsmap_has_false k m :
  JsMap.has k m = false <-> JsMap.get k m = None.
Proof.
  unfold JsMap.has. destruct (JsMap.get k m); split; congruence.
Qed.

Lemma jsmap_get_In k v m : JsMap.get k m = Some v -> In (k, v) m.
Proof.
  induction m as [|[k' v'] m IH]; simpl; [discriminate|].
  destruct (String.eqb_spec k k') as [->|Hne].
  - intros [= ->]. now left.
  - intros H. right. auto.
Qed.

Lemma jsmap_has_keys k m : JsMap.has k m = true <-> In k (JsMap.keys m).
Proof.
  unfold JsMap.has.
  induction m as [|[k' v'] m IH]; simpl.
  - split; [discriminate | tauto].
  - destruct (String.eqb_spec k k') as [->|Hne].
    + split; auto.
    + rewrite IH. split; [tauto | intros [E|H]; congruence].
Qed.

Lemma jsmap_not_has_keys k m : JsMap.has k m = false <-> ~ In k (JsMap.keys m).
Proof.
  rewrite <- jsmap_has_keys. destruct (JsMap.has k m); split; congruence.
Qed.

Lemma jsmap_In_get k v m :
  NoDup (JsMap.keys m) -> In (k, v) m -> JsMap.get k m = Some v.
Proof.
  induction m as [|[k' v'] m IH]; simpl; [tauto|].
  intros Hnd [E|Hin].
  - injection E as -> ->. now rewrite String.eqb_refl.
  - inversion Hnd as [|? ? Hnot Hnd']; subst.
    destruct (String.eqb_spec k k') as [->|Hne]; [|auto].
    exfalso. apply Hnot. change (In (fst (k', v)) (map fst m)).
    now apply in_map.
Qed.

Lemma jsmap_get_set_eq k v m : JsMap.get k (JsMap.set k v m) = Some v.
Proof.
  induction m as [|[k' v'] m IH]; simpl.
  - now rewrite String.eqb_refl.
  - destruct (String.eqb_spec k k') as [->|Hne]; simpl.
    + now rewrite String.eqb_refl.
    + destruct (String.eqb_spec k k'); [contradiction | exact IH].
Qed.

Lemma jsmap_get_set_ne k k' v m :
  k <> k' -> JsMap.get k' (JsMap.set k v m) = JsMap.get k' m.
Proof.
  intros Hne. induction m as [|[k0 v0] m IH]; simpl.
  - destruct (String.eqb_spec k' k); congruence.
  - destruct (String.eqb_spec k k0) as [->|Hk]; simpl.
    + destruct (String.eqb_spec k' k0); congruence.
    + destruct (String.eqb_spec k' k0); congruence.
Qed.

Lemma jsmap_set_fresh k v m :
  JsMap.has k m = false -> JsMap.set k v m = m ++ [(k, v)].
Proof.
  unfold JsMap.has.
  induction m as [|[k' v'] m IH]; simpl; [reflexivity|].
  destruct (String.eqb_spec k k') as [->|Hne]; [discriminate|].
  intros H. now rewrite IH.
Qed.

Lemma jsmap_keys_set_present k v m :
  JsMap.has k m = true -> JsMap.keys (JsMap.set k v m) = JsMap.keys m.
Proof.
  unfold JsMap.has.
  induction m as [|[k' v'] m IH]; simpl; [discriminate|].
  destruct (String.eqb_spec k k') as [->|Hne]; simpl; [reflexivity|].
  intros H. now rewrite IH.
Qed.

Lemma jsmap_keys_set k v m :
  JsMap.keys (JsMap.set k v m) =
  if JsMap.has k m then JsMap.keys m else JsMap.keys m ++ [k].
Proof.
  destruct (JsMap.has k m) eqn:H.
  - now apply jsmap_keys_set_present.
  - rewrite jsmap_set_fresh by assumption.
    unfold JsMap.keys. now rewrite map_app.
Qed.

Lemma jsmap_In_set k v k' v' m :
  In (k', v') (JsMap.set k v m) -> (k' = k /\ v' = v) \/ In (k', v') m.
Proof.
  induction m as [|[k0 v0] m IH]; simpl.
  - intros [[= <- <-]|[]]. now left.
  - destruct (String.eqb_spec k k0) as [->|Hne]; simpl.
    + intros [[= <- <-]|H]; [now left | right; now right].
    + intros [E|H]; [right; now left|].
      destruct (IH H) as [?|?]; [now left | right; now right].
Qed.

Lemma jsmap_In_delete k e m : In e (JsMap.delete k m) -> In e m.
Proof.
  induction m as [|[k0 v0] m IH]; simpl; [tauto|].
  destruct (String.eqb k k0); simpl; [now right|].
  intros [E|H]; [now left | right; auto].
Qed.

Lemma jsmap_NoDup_set k v m :
  NoDup (JsMap.keys m) -> NoDup (JsMap.keys (JsMap.set k v m)).
Proof.
  intros Hnd. rewrite jsmap_keys_set.
  destruct (JsMap.has k m) eqn:H; [assumption|].
  apply jsmap_not_has_keys in H.
  apply NoDup_rev in Hnd. rewrite <- (rev_involutive (_ ++ _)).
  apply NoDup_rev. rewrite rev_app_distr. simpl.
  constructor; [rewrite <- in_rev; exact H | exact Hnd].
Qed.

Lemma jsmap_NoDup_delete k m :
  NoDup (JsMap.keys m) -> NoDup (JsMap.keys (JsMap.delete k m)).
Proof.
  induction m as [|[k0 v0] m IH]; simpl; [auto|].
  intros Hnd. inversion Hnd as [|? ? Hnot Hnd']; subst.
  destruct (String.eqb k k0); simpl; [assumption|].
  constructor; [|auto].
  intros Hin. apply Hnot.
  unfold JsMap.keys in Hin. apply in_map_iff in Hin as [[k1 v1] [E Hin]].
  simpl in E; subst. apply jsmap_In_delete in Hin.
  change (In (fst (k0, v1)) (map fst m)). now apply in_map.
Qed.

Lemma jsmap_get_delete_eq k m :
  NoDup (JsMap.keys m) -> JsMap.get k (JsMap.delete k m) = None.
Proof.
  induction m as [|[k0 v0] m IH]; simpl; [reflexivity|].
  intros Hnd. inversion Hnd as [|? ? Hnot Hnd']; subst.
  destruct (String.eqb_spec k k0) as [->|Hne]; simpl.
  - apply jsmap_has_false. now apply jsmap_not_has_keys.
  - destruct (String.eqb_spec k k0); [contradiction | auto].
Qed.
End JsMapFacts.

(** ** Facts about the sort *)

Section SortFacts.
Context {A : Type} (cmp : A -> A -> number).

Lemma sort_insert_perm x l : Permutation (sort_insert cmp x l) (x :: l).
Proof.
  induction l as [|y l IH]; simpl; [reflexivity|].
  destruct (compare_result (cmp x y) <=? 0)%Z; [reflexivity|].
  rewrite IH. apply perm_swap.
Qed.

Lemma sort_perm l : Permutation (sort cmp l) l.
Proof.
  induction l as [|x l IH]; simpl; [constructor|].
  rewrite sort_insert_perm. now constructor.
Qed.
End SortFacts.

Section SortByPrice.
Variable objs : list UserAlertInfo.

Lemma number_le_trans a b c : number_le a b -> number_le b c -> number_le a c.
Proof. destruct a, b, c; simpl; try tauto. lia. Qed.

Lemma not_NaN_Num (v : number) : v <> NaN -> exists z, v = Num z.
Proof. destruct v as [|z]; [congruence | eauto]. Qed.

Lemma sort_insert_sorted x l :
  price_at objs x <> NaN ->
  Forall (fun r => price_at objs r <> NaN) l ->
  StronglySorted
    (fun r r' : ref => number_le (price_at objs r') (price_at objs r)) l ->
  StronglySorted
    (fun r r' : ref => number_le (price_at objs r') (price_at objs r))
    (sort_insert (by_price_desc objs) x l).
Proof.
  intros Hx Hl Hs. apply not_NaN_Num in Hx as [a Ha].
  induction Hs as [|y l Hs IH Hall]; simpl.
  - repeat constructor.
  - inversion Hl as [|? ? Hy Hl']; subst.
    apply not_NaN_Num in Hy as [b Hb].
    unfold by_price_desc at 1. rewrite Ha, Hb. simpl.
    destruct (Z.leb_spec (b - a) 0) as [Hle|Hgt].
    + constructor; [now constructor|].
      constructor; [rewrite Ha, Hb; simpl; lia|].
      eapply Forall_impl; [|exact Hall]. simpl. intros r Hr.
      apply number_le_trans with (price_at objs y); [exact Hr|].
      rewrite Ha, Hb. simpl. lia.
    + constructor; [now apply IH|].
      eapply Permutation_Forall; [symmetry; apply sort_insert_perm|].
      constructor; [rewrite Ha, Hb; simpl; lia | exact Hall].
Qed.

Lemma sort_sorted l :
  Forall (fun r => price_at objs r <> NaN) l ->
  StronglySorted
    (fun r r' : ref => number_le (price_at objs r') (price_at objs r))
    (sort (by_price_desc objs) l).
Proof.
  induction 1 as [|x l Hx Hl IH]; simpl; [constructor|].
  apply sort_insert_sorted; [assumption| |assumption].
  eapply Permutation_Forall; [symmetry; apply sort_perm | exact Hl].
Qed.

(** Stability: alerts with the same price keep the order of the map. *)
Lemma sort_insert_stable p x l :
  price_at objs x <> NaN ->
  Forall (fun r => price_at objs r <> NaN) l ->
  filter (fun r => number_eqb (price_at objs r) p)
         (sort_insert (by_price_desc objs) x l) =
  filter (fun r => number_eqb (price_at objs r) p) (x :: l).
Proof.
  intros Hx Hl. apply not_NaN_Num in Hx as [a Ha].
  induction Hl as [|y l Hy Hl IH]; simpl; [reflexivity|].
  apply not_NaN_Num in Hy as [b Hb].
  unfold by_price_desc at 1. rewrite Ha, Hb. simpl.
  destruct (Z.leb_spec (b - a) 0) as [Hle|Hgt]; [simpl; now rewrite Ha, Hb|].
  simpl. rewrite IH. simpl. rewrite Ha, Hb.
  destruct p as [|q]; simpl; [reflexivity|].
  destruct (Z.eqb_spec a q), (Z.eqb_spec b q); try reflexivity; lia.
Qed.

Lemma sort_stable p l :
  Forall (fun r => price_at objs r <> NaN) l ->
  filter (fun r => number_eqb (price_at objs r) p) (sort (by_price_desc objs) l) =
  filter (fun r => number_eqb (price_at objs r) p) l.
Proof.
  induction 1 as [|x l Hx Hl IH]; simpl; [reflexivity|].
  rewrite sort_insert_stable; [simpl; now rewrite IH | assumption |].
  eapply Permutation_Forall; [symmetry; apply sort_perm | exact Hl].
Qed.
End SortByPrice.

(** ** Facts about the heap of alert objects *)

Lemma update_nth_length {A} n (f : A -> A) l :
  List.length (update_nth n f l) = List.length l.
Proof.
  revert n. induction l as [|x l IH]; intros [|n]; simpl; auto.
Qed.

Lemma nth_error_update_nth {A} n m (f : A -> A) l :
  nth_error (update_nth n f l) m =
  if (n =? m)%nat then option_map f (nth_error l m) else nth_error l m.
Proof.
  revert n m. induction l as [|x l IH]; intros [|n] [|m]; simpl; auto.
  now destruct (n =? m)%nat.
Qed.

Lemma nth_error_snoc {A} (l : list A) x :
  nth_error (l ++ [x]) (List.length l) = Some x.
Proof.
  rewrite nth_error_app2 by lia. now rewrite Nat.sub_diag.
Qed.

Lemma nth_error_grow {A} (l l' : list A) n x :
  nth_error l n = Some x -> nth_error (l ++ l') n = Some x.
Proof.
  intros H. rewrite nth_error_app1; [assumption|].
  apply nth_error_Some. congruence.
Qed.

(** ** Facts about id generation *)

Example toString16_values :
  toString16 0 = "0"%string /\ toString16 10 = "a"%string /\
  toString16 255 = "ff"%string /\ toString16 4096 = "1000"%string /\
  toString16 1000000 = "f4240"%string.
Proof. repeat split. Qed.

Lemma toString16_nonempty n : toString16 n <> ""%string.
Proof.
  unfold toString16. destruct (N.to_nat (N.log2 n)); simpl.
  - discriminate.
  - destruct (n / 16 =? 0)%N; [discriminate|].
    generalize (n / 16)%N, (String (hex_digit (n mod 16)) "").
    induction n0 as [|f IH]; intros q acc; simpl; [discriminate|].
    destruct (q / 16 =? 0)%N; [discriminate | apply IH].
Qed.

Lemma _getNewId_sound candidates m k :
  _getNewId candidates m = Some k ->
  JsMap.has k m = false /\
  exists tried n rest,
    candidates = tried ++ n :: rest /\ k = toString16 n /\
    Forall (fun c => JsMap.has (toString16 c) m = true) tried.
Proof.
  induction candidates as [|c cs IH]; simpl; [discriminate|].
  destruct (JsMap.has (toString16 c) m) eqn:Hc.
  - intros H. destruct (IH H) as [Hk (tried & n & rest & -> & -> & Hall)].
    split; [assumption|]. exists (c :: tried), n, rest. auto.
  - intros [= <-]. split; [assumption|]. exists [], c, cs. auto.
Qed.

Lemma _getNewId_returns candidates m :
  Exists (fun c => JsMap.has (toString16 c) m = false) candidates ->
  exists k, _getNewId candidates m = Some k.
Proof.
  induction 1 as [c cs Hc|c cs _ IH]; simpl.
  - rewrite Hc. eauto.
  - destruct (JsMap.has (toString16 c) m); eauto.
Qed.

Lemma _getNewId_nonempty candidates m k :
  _getNewId candidates m = Some k -> k <> ""%string.
Proof.
  intros H. apply _getNewId_sound in H as [_ (tried & n & rest & _ & -> & _)].
  apply toString16_nonempty.
Qed.

(** ** The store's invariants are kept by every operation *)

Ltac unfold_store :=
  unfold fire_alertsChanged, _updateAlertsArray, fire, with_alerts, modify,
    alloc in *; simpl in *.

Lemma wf_ext st st' :
  objects st' = objects st -> _alerts st' = _alerts st -> wf st -> wf st'.
Proof.
  intros Ho Ha [H1 H2 H3]. split; unfold valid_entries; rewrite ?Ho, ?Ha; auto.
Qed.

Lemma objects_fire_alertsChanged st :
  objects (fire_alertsChanged st) = objects st.
Proof. unfold_store. now destruct (listening st). Qed.

Lemma _alerts_fire_alertsChanged st :
  _alerts (fire_alertsChanged st) = _alerts st.
Proof. unfold_store. now destruct (listening st). Qed.

Lemma listening_fire_alertsChanged st :
  listening (fire_alertsChanged st) = listening st.
Proof. unfold_store. now destruct (listening st) eqn:E. Qed.

Lemma fired_fire_alertsChanged st :
  fired (fire_alertsChanged st) = fired st ++ [AlertsChanged].
Proof. unfold_store. now destruct (listening st). Qed.

Lemma array_ok_fire_alertsChanged st :
  listening st = true -> array_ok (fire_alertsChanged st).
Proof. intros H. unfold array_ok. unfold_store. now rewrite H. Qed.

Lemma wf_fire_alertsChanged st : wf st -> wf (fire_alertsChanged st).
Proof.
  apply wf_ext;
    [apply objects_fire_alertsChanged | apply _alerts_fire_alertsChanged].
Qed.

Lemma wf_constructor : wf constructor.
Proof.
  split; simpl; [constructor | intros k r [] | intros k []].
Qed.

(** Filing a new object under its id. *)
Lemma wf_insert st a :
  wf st -> id a <> ""%string ->
  wf (with_alerts (JsMap.set (id a) (List.length (objects st)) (_alerts st))
        (snd (alloc a st))).
Proof.
  intros [H1 H2 H3] Hne. split; unfold valid_entries in *; unfold_store.
  - now apply jsmap_NoDup_set.
  - intros k r Hin. apply jsmap_In_set in Hin as [[-> ->]|Hin].
    + exists a. split; [apply nth_error_snoc | reflexivity].
    + destruct (H2 k r Hin) as (b & Hb & Hid).
      exists b. split; [now apply nth_error_grow | assumption].
  - intros k. rewrite jsmap_keys_set.
    destruct (JsMap.has (id a) (_alerts st)); [apply H3|].
    rewrite in_app_iff. simpl. intros [Hin|[<-|[]]]; auto.
Qed.

Lemma wf_modify st r f :
  (forall a, id (f a) = id a) -> wf st -> wf (modify r f st).
Proof.
  intros Hf [H1 H2 H3]. split; unfold valid_entries in *; unfold_store; auto.
  intros k r' Hin. destruct (H2 k r' Hin) as (b & Hb & Hid).
  rewrite nth_error_update_nth, Hb.
  destruct (r =? r')%nat; simpl; eauto.
  exists (f b). now rewrite Hf.
Qed.

Lemma wf_delete st k :
  wf st -> wf (with_alerts (JsMap.delete k (_alerts st)) st).
Proof.
  intros [H1 H2 H3]. split; unfold valid_entries in *; unfold_store.
  - now apply jsmap_NoDup_delete.
  - intros k' r Hin. apply jsmap_In_delete in Hin. auto.
  - intros k' Hin. apply H3.
    unfold JsMap.keys in *. apply in_map_iff in Hin as [e [E Hin]].
    apply jsmap_In_delete in Hin. subst. now apply in_map.
Qed.

Lemma addAlertWithCondition_unfold candidates p c st k st' :
  addAlertWithCondition candidates p c st = Some (k, st') ->
  _getNewId candidates (_alerts st) = Some k /\
  let a := {| id := k; price := p; condition := Some c; type := None;
              toolRef := None; initialPricePosition := None;
              notifications := None; symbol := None; exchange := None |} in
  let r := List.length (objects st) in
  st' = fire_alertsChanged
          (fire (AlertAdded r)
             (with_alerts (JsMap.set k r (_alerts st)) (snd (alloc a st)))).
Proof.
  unfold addAlertWithCondition.
  destruct (_getNewId candidates (_alerts st)) as [newId|]; [|discriminate].
  intros [= <- <-]. split; reflexivity.
Qed.

Lemma wf_addAlertWithCondition candidates p c st k st' :
  wf st -> addAlertWithCondition candidates p c st = Some (k, st') -> wf st'.
Proof.
  intros Hwf H. apply addAlertWithCondition_unfold in H as [Hid ->].
  apply wf_fire_alertsChanged.
  eapply wf_ext; [| |eapply (wf_insert st) with (a := Build_UserAlertInfo k _ _ _ _ _ _ _ _)];
    [reflexivity | reflexivity | assumption |].
  simpl. eapply _getNewId_nonempty; eauto.
Qed.

Lemma wf_removeAlert k st : wf st -> wf (removeAlert k st).
Proof.
  intros Hwf. unfold removeAlert.
  destruct (JsMap.has k (_alerts st)); simpl; [|assumption].
  apply wf_fire_alertsChanged.
  eapply wf_ext; [| |apply (wf_delete st k Hwf)]; reflexivity.
Qed.

Lemma wf_updateAlertPrice k p st : wf st -> wf (updateAlertPrice k p st).
Proof.
  intros Hwf. unfold updateAlertPrice.
  destruct (JsMap.get k (_alerts st)) as [r|]; [|assumption].
  apply wf_fire_alertsChanged.
  eapply wf_ext; [| |apply (wf_modify st r (set_price p))]; auto.
Qed.

Lemma wf_updateAlert k p c n st : wf st -> wf (updateAlert k p c n st).
Proof.
  intros Hwf. unfold updateAlert.
  destruct (JsMap.get k (_alerts st)) as [r|]; [|assumption].
  apply wf_fire_alertsChanged.
  assert (H2 : wf (modify r (set_condition c) (modify r (set_price p) st))).
  { apply wf_modify; [reflexivity|]. apply wf_modify; [reflexivity|assumption]. }
  destruct n as [n'|].
  - eapply wf_ext;
      [| |eapply (wf_modify _ r (set_notifications n')); [|exact H2]];
      reflexivity.
  - eapply wf_ext; [| |exact H2]; reflexivity.
Qed.

Lemma wf_import_one rec st : wf st -> wf (import_one rec st).
Proof.
  intros Hwf. unfold import_one.
  destruct (id_of rec) as [k|] eqn:Hk; [|assumption].
  destruct (number_of (i_price rec)) as [p|]; [|assumption].
  destruct (truthy (i_triggered rec)); [assumption|].
  eapply wf_ext;
    [| |eapply (wf_insert st) with (a := Build_UserAlertInfo k _ _ _ _ _ _ _ _)];
    [reflexivity | reflexivity | assumption |].
  simpl. unfold id_of in Hk. destruct (i_id rec) as [s|]; [|discriminate].
  destruct (String.eqb_spec s ""); [discriminate|]. congruence.
Qed.

Lemma wf_import_loop records st : wf st -> wf (import_loop records st).
Proof.
  unfold import_loop. revert st.
  induction records as [|rec records IH]; simpl; intros st Hwf; [assumption|].
  apply IH. now apply wf_import_one.
Qed.

Lemma wf_importAlerts arg st : wf st -> wf (importAlerts arg st).
Proof.
  intros Hwf. destruct arg as [|records]; simpl; [assumption|].
  destruct (0 <? List.length records)%nat.
  - apply wf_fire_alertsChanged. now apply wf_import_loop.
  - now apply wf_import_loop.
Qed.

Lemma wf_clearAlerts st : wf st -> wf (clearAlerts st).
Proof.
  intros Hwf. unfold clearAlerts.
  destruct (JsMap.size (_alerts st) =? 0)%nat; [assumption|].
  apply wf_fire_alertsChanged.
  split; simpl; [constructor | intros k r [] | intros k []].
Qed.

Lemma wf_run_op op st st' : wf st -> run_op op st = Some st' -> wf st'.
Proof.
  intros Hwf. destruct op; simpl.
  - unfold addAlert. destruct (addAlertWithCondition _ _ _ _) as [[k s]|] eqn:E;
      [|discriminate].
    intros [= <-]. eapply wf_addAlertWithCondition; eauto.
  - destruct (addAlertWithCondition _ _ _ _) as [[k s]|] eqn:E; [|discriminate].
    intros [= <-]. eapply wf_addAlertWithCondition; eauto.
  - intros [= <-]. now apply wf_removeAlert.
  - intros [= <-]. now apply wf_updateAlertPrice.
  - intros [= <-]. now apply wf_updateAlert.
  - intros [= <-]. now apply wf_importAlerts.
  - intros [= <-]. now apply wf_clearAlerts.
Qed.

Lemma wf_run_ops ops st st' : wf st -> run_ops ops st = Some st' -> wf st'.
Proof.
  revert st. induction ops as [|op ops IH]; simpl; intros st Hwf.
  - now intros [= <-].
  - destruct (run_op op st) as [st1|] eqn:E; [|discriminate].
    apply IH. eapply wf_run_op; eauto.
Qed.

(** ** The array behind [alerts()] follows the map *)

Lemma import_one_frame rec st :
  listening (import_one rec st) = listening st /\
  fired (import_one rec st) = fired st /\
  _alertsArray (import_one rec st) = _alertsArray st.
Proof.
  unfold import_one.
  destruct (id_of rec), (number_of (i_price rec)), (truthy (i_triggered rec));
    simpl; auto.
Qed.

Lemma import_loop_frame records st :
  listening (import_loop records st) = listening st /\
  fired (import_loop records st) = fired st /\
  _alertsArray (import_loop records st) = _alertsArray st.
Proof.
  unfold import_loop. revert st.
  induction records as [|rec records IH]; simpl; intros st; [auto|].
  destruct (IH (import_one rec st)) as (-> & -> & ->).
  apply import_one_frame.
Qed.

Lemma live_fire_alertsChanged st :
  listening st = true -> live (fire_alertsChanged st).
Proof.
  intros H. split.
  - now rewrite listening_fire_alertsChanged.
  - now apply array_ok_fire_alertsChanged.
Qed.

Lemma live_addAlertWithCondition candidates p c st k st' :
  live st -> addAlertWithCondition candidates p c st = Some (k, st') -> live st'.
Proof.
  intros [Hl _] H. apply addAlertWithCondition_unfold in H as [_ ->].
  now apply live_fire_alertsChanged.
Qed.

Lemma live_run_op op st st' : live st -> run_op op st = Some st' -> live st'.
Proof.
  intros Hlive. pose proof Hlive as [Hl Harr]. destruct op; simpl.
  - unfold addAlert.
    destruct (addAlertWithCondition _ _ _ _) as [[k s]|] eqn:E; [|discriminate].
    intros [= <-]. eapply live_addAlertWithCondition; eauto.
  - destruct (addAlertWithCondition _ _ _ _) as [[k s]|] eqn:E; [|discriminate].
    intros [= <-]. eapply live_addAlertWithCondition; eauto.
  - intros [= <-]. unfold removeAlert.
    destruct (JsMap.has k (_alerts st)); simpl; [|assumption].
    now apply live_fire_alertsChanged.
  - intros [= <-]. unfold updateAlertPrice.
    destruct (JsMap.get k (_alerts st)); [|assumption].
    now apply live_fire_alertsChanged.
  - intros [= <-]. unfold updateAlert.
    destruct (JsMap.get k (_alerts st)); [|assumption].
    apply live_fire_alertsChanged. now destruct n.
  - intros [= <-]. destruct arg as [|records]; simpl; [assumption|].
    destruct records as [|rec records]; [assumption|].
    change (0 <? List.length (rec :: records))%nat with true. cbv iota.
    apply live_fire_alertsChanged.
    now destruct (import_loop_frame (rec :: records) st) as (-> & _).
  - intros [= <-]. unfold clearAlerts.
    destruct (JsMap.size (_alerts st) =? 0)%nat; [assumption|].
    now apply live_fire_alertsChanged.
Qed.

Lemma live_run_ops ops st st' : live st -> run_ops ops st = Some st' -> live st'.
Proof.
  revert st. induction ops as [|op ops IH]; simpl; intros st Hlive.
  - now intros [= <-].
  - destruct (run_op op st) as [st1|] eqn:E; [|discriminate].
    apply IH. eapply live_run_op; eauto.
Qed.

Lemma live_constructor : live constructor.
Proof. split; reflexivity. Qed.

(** From references to objects, for lists of valid references. *)
Lemma view_length (objs : list UserAlertInfo) (l : list ref) :
  Forall (fun r => exists a, nth_error objs r = Some a) l ->
  List.length
    (flat_map (fun r => match nth_error objs r with
                        | Some a => [a] | None => [] end) l) = List.length l.
Proof.
  induction 1 as [|r l [a Ha] _ IH]; simpl; [reflexivity|].
  rewrite Ha. simpl. now rewrite IH.
Qed.

Lemma view_sorted objs (l : list ref) :
  Forall (fun r => exists a, nth_error objs r = Some a) l ->
  StronglySorted
    (fun r r' => number_le (price_at objs r') (price_at objs r)) l ->
  StronglySorted (fun a b => number_le (price b) (price a))
    (flat_map (fun r => match nth_error objs r with
                        | Some a => [a] | None => [] end) l).
Proof.
  intros Hvalid Hs. induction Hs as [|r l Hs IH Hall]; simpl.
  - constructor.
  - inversion Hvalid as [|? ? [a Ha] Hvalid']; subst.
    rewrite Ha. simpl.
    constructor; [now apply IH|].
    apply Forall_forall. intros b Hb.
    apply in_flat_map in Hb as (r' & Hr' & Hb).
    rewrite Forall_forall in Hall. specialize (Hall r' Hr').
    unfold price_at in Hall. rewrite Ha in Hall.
    destruct (nth_error objs r') as [b'|]; [|contradiction].
    destruct Hb as [<-|[]]. exact Hall.
Qed.

Lemma values_valid st :
  wf st ->
  Forall (fun r => exists a, nth_error (objects st) r = Some a)
         (JsMap.values (_alerts st)).
Proof.
  intros [_ H _]. apply Forall_forall. intros r Hr.
  unfold JsMap.values in Hr. apply in_map_iff in Hr as [[k r'] [E Hin]].
  simpl in E; subst. destruct (H k r Hin) as (a & Ha & _). eauto.
Qed.

(** When no stored alert has a NaN price, no reference of the map leads to
    one. *)
Lemma values_not_NaN st :
  wf st ->
  Forall (fun a => price a <> NaN) (stored st) ->
  Forall (fun r => price_at (objects st) r <> NaN) (JsMap.values (_alerts st)).
Proof.
  intros Hwf Hst. pose proof (values_valid st Hwf) as Hvalid.
  unfold stored, deref in Hst. rewrite Forall_forall in Hst, Hvalid.
  apply Forall_forall. intros r Hr. destruct (Hvalid r Hr) as [a Ha].
  unfold price_at. rewrite Ha. apply Hst.
  apply in_flat_map. exists r. split; [assumption|]. rewrite Ha. now left.
Qed.

(** C4, as the code has it.  After any sequence of the store's mutating
    operations on a newly constructed store, [alerts()] holds exactly the
    objects that the store's map holds (the same references, hence the same
    alerts, none missing and none extra); and when no stored alert has a
    NaN price they are in descending order of price. *)
Theorem alerts_sorted_after_every_mutation ops st :
  run_ops ops constructor = Some st ->
  Permutation (alerts st) (JsMap.values (_alerts st)) /\
  Permutation (alerts_view st) (stored st) /\
  List.length (alerts_view st) = JsMap.size (_alerts st) /\
  (Forall (fun a => price a <> NaN) (stored st) ->
   StronglySorted (fun a b => number_le (price b) (price a)) (alerts_view st)).
Proof.
  intros Hrun.
  pose proof (live_run_ops _ _ _ live_constructor Hrun) as [_ Harr].
  pose proof (wf_run_ops _ _ _ wf_constructor Hrun) as Hwf.
  unfold array_ok in Harr.
  assert (Hperm : Permutation (alerts st) (JsMap.values (_alerts st))).
  { unfold alerts. rewrite Harr. apply sort_perm. }
  assert (Hvalid : Forall (fun r => exists a, nth_error (objects st) r = Some a)
                          (alerts st)).
  { eapply Permutation_Forall; [symmetry; exact Hperm|].
    now apply values_valid. }
  split; [exact Hperm|]. split; [|split].
  - unfold alerts_view, stored. now apply Permutation_flat_map.
  - unfold alerts_view, deref. etransitivity; [now apply view_length|].
    rewrite (Permutation_length Hperm). unfold JsMap.values, JsMap.size.
    apply length_map.
  - intros Hnum. unfold alerts_view, deref.
    apply view_sorted; [exact Hvalid|].
    unfold alerts. rewrite Harr. apply sort_sorted.
    now apply values_not_NaN.
Qed.

Example alerts_of_ex_store :
  alerts ex_store = [2; 1; 0]%nat /\
  map id (alerts_view ex_store) = ["c1"; "b"; "a"]%string /\
  map price (alerts_view ex_store) = [Num 400; Num 300; Num 250].
Proof. repeat split. Qed.

Lemma C4_witness :
  Forall (fun a => price a <> NaN) (stored ex_store) /\
  Permutation (alerts ex_store) (JsMap.values (_alerts ex_store)) /\
  Permutation (alerts_view ex_store) (stored ex_store) /\
  List.length (alerts_view ex_store) = JsMap.size (_alerts ex_store) /\
  StronglySorted (fun a b => number_le (price b) (price a))
    (alerts_view ex_store).
Proof.
  assert (Hnum : Forall (fun a => price a <> NaN) (stored ex_store))
    by (repeat constructor; discriminate).
  split; [exact Hnum|].
  destruct (alerts_sorted_after_every_mutation ex_ops ex_store)
    as (H1 & H2 & H3 & H4); [vm_compute; reflexivity|].
  repeat split; auto.
Defined.

(** C4 as the specification states it fails when a price is NaN: once
    [updateAlert] has stored NaN for one of two alerts, no arrangement of
    the two is in descending order of price, so neither is the one that
    [alerts()] returns. *)
Lemma alerts_with_a_NaN_price_are_not_descending :
  run_ops ex_ops_NaN constructor = Some ex_store_NaN /\
  map price (stored ex_store_NaN) = [NaN; Num 50] /\
  (forall l, Permutation (stored ex_store_NaN) l ->
     ~ Sorted (fun a b => number_le (price b) (price a)) l) /\
  ~ Sorted (fun a b => number_le (price b) (price a)) (alerts_view ex_store_NaN).
Proof.
  assert (Hall : forall l, Permutation (stored ex_store_NaN) l ->
            ~ Sorted (fun a b => number_le (price b) (price a)) l).
  { intros l Hperm Hs.
    apply Permutation_length_2_inv in Hperm as [->| ->];
      inversion Hs as [|? ? _ Hhd]; subst;
      inversion Hhd as [|? ? Hle]; subst; exact Hle. }
  split; [reflexivity|]. split; [reflexivity|]. split; [exact Hall|].
  apply Hall. vm_compute. first [reflexivity | apply perm_swap].
Qed.

(** The invariant is that of a store in use: [destroy] unsubscribes the
    listener that refreshes the array, and [alerts()] is no longer kept up to
    date afterwards. *)
Example alerts_not_refreshed_after_destroy :
  option_map (fun r => (alerts (snd r), JsMap.keys (_alerts (snd r))))
    (addAlert [10%N] 100%Z (destroy constructor))
  = Some ([], ["a"%string]).
Proof. reflexivity. Qed.

(** ** Operations on an id that the store does not hold *)

Lemma events_since_same st : events_since st st = [].
Proof. unfold events_since. apply skipn_all. Qed.

(** C9.  On an id that is not in the store, [removeAlert], [updateAlertPrice]
    and [updateAlert] return the store as it was (same map, same objects,
    same array, same log of events) and fire nothing. *)
Theorem absent_id_changes_nothing k st :
  JsMap.has k (_alerts st) = false ->
  removeAlert k st = st /\
  (forall p, updateAlertPrice k p st = st) /\
  (forall p c n, updateAlert k p c n st = st) /\
  events_since st (removeAlert k st) = [] /\
  (forall p, events_since st (updateAlertPrice k p st) = []) /\
  (forall p c n, events_since st (updateAlert k p c n st) = []).
Proof.
  intros Hhas.
  assert (Hget : JsMap.get k (_alerts st) = None) by now apply jsmap_has_false.
  assert (H1 : removeAlert k st = st).
  { unfold removeAlert. now rewrite Hhas. }
  assert (H2 : forall p, updateAlertPrice k p st = st).
  { intros p. unfold updateAlertPrice. now rewrite Hget. }
  assert (H3 : forall p c n, updateAlert k p c n st = st).
  { intros p c n. unfold updateAlert. now rewrite Hget. }
  repeat split; auto; intros; rewrite ?H1, ?H2, ?H3; apply events_since_same.
Qed.

Lemma C9_witness :
  JsMap.has "zz" (_alerts ex_store) = false /\
  removeAlert "zz" ex_store = ex_store /\
  (forall p, updateAlertPrice "zz" p ex_store = ex_store) /\
  (forall p c n, updateAlert "zz" p c n ex_store = ex_store) /\
  events_since ex_store (removeAlert "zz" ex_store) = [] /\
  (forall p, events_since ex_store (updateAlertPrice "zz" p ex_store) = []) /\
  (forall p c n, events_since ex_store (updateAlert "zz" p c n ex_store) = []).
Proof.
  split; [reflexivity|].
  apply (absent_id_changes_nothing "zz" ex_store). reflexivity.
Defined.

(** ** The events fired by each operation *)

Lemma events_since_app st st' evs :
  fired st' = fired st ++ evs -> events_since st st' = evs.
Proof.
  intros H. unfold events_since. rewrite H.
  rewrite skipn_app, skipn_all, Nat.sub_diag. reflexivity.
Qed.

Lemma events_fire_alertsChanged st0 st evs :
  fired st = fired st0 ++ evs ->
  events_since st0 (fire_alertsChanged st) = evs ++ [AlertsChanged].
Proof.
  intros H. apply events_since_app.
  rewrite fired_fire_alertsChanged, H. now rewrite app_assoc.
Qed.

Lemma events_addAlertWithCondition candidates p c st k st' :
  addAlertWithCondition candidates p c st = Some (k, st') ->
  exists r,
    JsMap.has k (_alerts st) = false /\
    JsMap.get k (_alerts st') = Some r /\
    events_since st st' = [AlertAdded r; AlertsChanged].
Proof.
  intros H. apply addAlertWithCondition_unfold in H as [Hid ->].
  exists (List.length (objects st)). split; [|split].
  - now apply _getNewId_sound in Hid.
  - rewrite _alerts_fire_alertsChanged. simpl. apply jsmap_get_set_eq.
  - apply (events_fire_alertsChanged st _ [AlertAdded _]). reflexivity.
Qed.

(** C5, as the code has it.  The operations on one alert fire that alert's
    own event followed by one [alertsChanged]: [alertAdded] with the new
    alert on [addAlert] and [addAlertWithCondition], [alertRemoved] with the
    id on [removeAlert] of a stored id, [alertChanged] with the alert on
    [updateAlertPrice] and [updateAlert] of a stored id.  The batch
    operations fire one [alertsChanged] and no event per alert:
    [importAlerts] whenever the array is not empty, [clearAlerts] whenever the
    store is not empty.  An operation that finds nothing to do fires
    nothing. *)
Theorem events_fired_by_each_operation op st st' :
  run_op op st = Some st' ->
  match op with
  | OpAddAlert _ _ | OpAddAlertWithCondition _ _ _ =>
      exists k r,
        JsMap.has k (_alerts st) = false /\
        JsMap.get k (_alerts st') = Some r /\
        events_since st st' = [AlertAdded r; AlertsChanged]
  | OpRemoveAlert k =>
      events_since st st' =
      if JsMap.has k (_alerts st) then [AlertRemoved k; AlertsChanged] else []
  | OpUpdateAlertPrice k _ | OpUpdateAlert k _ _ _ =>
      events_since st st' =
      match JsMap.get k (_alerts st) with
      | Some r => [AlertChanged r; AlertsChanged]
      | None => []
      end
  | OpImportAlerts (ArrayOf (_ :: _)) => events_since st st' = [AlertsChanged]
  | OpImportAlerts _ => events_since st st' = []
  | OpClearAlerts =>
      events_since st st' =
      if (JsMap.size (_alerts st) =? 0)%nat then [] else [AlertsChanged]
  end.
Proof.
  destruct op; simpl.
  - unfold addAlert.
    destruct (addAlertWithCondition _ _ _ _) as [[k s]|] eqn:E; [|discriminate].
    intros [= <-]. exists k. eapply events_addAlertWithCondition; eauto.
  - destruct (addAlertWithCondition _ _ _ _) as [[k s]|] eqn:E; [|discriminate].
    intros [= <-]. exists k. eapply events_addAlertWithCondition; eauto.
  - intros [= <-]. unfold removeAlert.
    destruct (JsMap.has k (_alerts st)); simpl.
    + apply (events_fire_alertsChanged st _ [AlertRemoved k]). reflexivity.
    + apply events_since_same.
  - intros [= <-]. unfold updateAlertPrice.
    destruct (JsMap.get k (_alerts st)) as [r|].
    + apply (events_fire_alertsChanged st _ [AlertChanged r]). reflexivity.
    + apply events_since_same.
  - intros [= <-]. unfold updateAlert.
    destruct (JsMap.get k (_alerts st)) as [r|].
    + apply (events_fire_alertsChanged st _ [AlertChanged r]).
      now destruct n.
    + apply events_since_same.
  - intros [= <-]. destruct arg as [|[|rec records]].
    + apply events_since_same.
    + apply events_since_same.
    + unfold importAlerts.
      change (0 <? List.length (rec :: records))%nat with true. cbv iota.
      apply (events_fire_alertsChanged st _ []).
      destruct (import_loop_frame (rec :: records) st) as (_ & -> & _).
      now rewrite app_nil_r.
  - intros [= <-]. unfold clearAlerts.
    destruct (JsMap.size (_alerts st) =? 0)%nat.
    + apply events_since_same.
    + apply (events_fire_alertsChanged st _ []). simpl. now rewrite app_nil_r.
Qed.

Lemma C5_witness :
  events_since constructor
    (importAlerts (ArrayOf [ex_record "c1" 200%Z; ex_record "c2" 300%Z])
       constructor)
  = [AlertsChanged].
Proof.
  apply (events_fired_by_each_operation
           (OpImportAlerts (ArrayOf [ex_record "c1" 200%Z; ex_record "c2" 300%Z]))
           constructor).
  reflexivity.
Defined.

(** C5 as the specification states it fails on the batch operations:
    importing one record into a new store adds an alert without any
    [alertAdded], and clearing that store removes it without any
    [alertRemoved]. *)
Lemma batch_operations_fire_no_individual_event :
  let st1 := importAlerts (ArrayOf [ex_record "c1" 200%Z]) constructor in
  ~ notified_individually constructor st1 /\
  ~ notified_individually st1 (clearAlerts st1).
Proof.
  split.
  - intros (Hadd & _ & _).
    specialize (Hadd "c1"%string O eq_refl eq_refl).
    vm_compute in Hadd. destruct Hadd as [H|[]]. discriminate.
  - intros (_ & Hrem & _).
    specialize (Hrem "c1"%string eq_refl eq_refl).
    vm_compute in Hrem. destruct Hrem as [H|[]]. discriminate.
Qed.

(** ** [createdAt] in exported records *)

Lemma export_entries_createdAt now objs entries :
  Forall (fun s => s_createdAt s = now) (export_entries now objs entries).
Proof.
  induction entries as [|[k r] entries IH]; simpl; [constructor|].
  destruct (nth_error objs r) as [a|]; [|assumption].
  destruct (is_tool a); simpl; [assumption|].
  constructor; [reflexivity | assumption].
Qed.

Lemma export_entries_restamp t1 t2 objs entries :
  export_entries t2 objs entries =
  map (restamp t2) (export_entries t1 objs entries).
Proof.
  induction entries as [|[k r] entries IH]; simpl; [reflexivity|].
  destruct (nth_error objs r) as [a|]; [|assumption].
  destruct (is_tool a); simpl; [assumption|].
  now rewrite IH.
Qed.

(** ** Ids are unique *)

Lemma stored_ids st : wf st -> map id (stored st) = JsMap.keys (_alerts st).
Proof.
  intros [_ Hvalid _]. unfold stored, deref, valid_entries in *.
  induction (_alerts st) as [|[k r] m IH]; simpl; [reflexivity|].
  destruct (Hvalid k r (or_introl eq_refl)) as (a & -> & <-). simpl.
  f_equal. apply IH. intros k' r' Hin. apply Hvalid. now right.
Qed.

Lemma stored_ids_NoDup st : wf st -> NoDup (map id (stored st)).
Proof. intros Hwf. rewrite stored_ids by assumption. apply Hwf. Qed.

(** C6.  In any store reached by the store's operations the alerts' ids are
    pairwise distinct.  [addAlertWithCondition] (and so [addAlert]) returns
    the hexadecimal form of the first random candidate that no stored alert
    holds, all candidates drawn before it being held; the returned id is
    held by no alert of the store before the call and by one after it, and
    the ids stay pairwise distinct.  The call returns as soon as the random
    source yields a candidate that no stored alert holds. *)
Theorem generated_ids_are_fresh ops st candidates p c :
  run_ops ops constructor = Some st ->
  NoDup (map id (stored st)) /\
  addAlert candidates p st = addAlertWithCondition candidates p crossing st /\
  (forall k st',
     addAlertWithCondition candidates p c st = Some (k, st') ->
     ~ In k (map id (stored st)) /\
     (exists tried n rest,
        candidates = tried ++ n :: rest /\ k = toString16 n /\
        Forall (fun x => In (toString16 x) (map id (stored st))) tried) /\
     In k (map id (stored st')) /\
     NoDup (map id (stored st'))) /\
  (Exists (fun n => ~ In (toString16 n) (map id (stored st))) candidates ->
   exists k st', addAlertWithCondition candidates p c st = Some (k, st')).
Proof.
  intros Hrun.
  pose proof (wf_run_ops _ _ _ wf_constructor Hrun) as Hwf.
  pose proof (stored_ids st Hwf) as Hids.
  split; [now apply stored_ids_NoDup|]. split; [reflexivity|]. split.
  - intros k st' Hadd.
    pose proof (wf_addAlertWithCondition _ _ _ _ _ _ Hwf Hadd) as Hwf'.
    pose proof (events_addAlertWithCondition _ _ _ _ _ _ Hadd)
      as (r & Hfresh & Hget & _).
    apply addAlertWithCondition_unfold in Hadd as [Hid _].
    apply _getNewId_sound in Hid as [_ (tried & n & rest & Hc & Hk & Hall)].
    rewrite Hids. repeat split.
    + now apply jsmap_not_has_keys.
    + exists tried, n, rest. repeat split; try assumption.
      eapply Forall_impl; [|exact Hall]. intros x Hx. now apply jsmap_has_keys.
    + rewrite stored_ids by assumption. apply jsmap_has_keys.
      apply jsmap_has_get. eauto.
    + now apply stored_ids_NoDup.
  - intros Hex. rewrite Hids in Hex.
    destruct (_getNewId_returns candidates (_alerts st)) as [k Hk].
    { eapply Exists_impl; [|exact Hex]. intros n Hn.
      now apply jsmap_not_has_keys. }
    unfold addAlertWithCondition. rewrite Hk. simpl. eauto.
Qed.

Lemma C6_witness :
  NoDup (map id (stored ex_store)) /\
  addAlert [11%N; 12%N] 500%Z ex_store =
    addAlertWithCondition [11%N; 12%N] 500%Z crossing ex_store /\
  (forall k st',
     addAlertWithCondition [11%N; 12%N] 500%Z crossing_up ex_store = Some (k, st') ->
     ~ In k (map id (stored ex_store)) /\
     (exists tried n rest,
        [11%N; 12%N] = tried ++ n :: rest /\ k = toString16 n /\
        Forall (fun x => In (toString16 x) (map id (stored ex_store))) tried) /\
     In k (map id (stored st')) /\
     NoDup (map id (stored st'))) /\
  (Exists (fun n => ~ In (toString16 n) (map id (stored ex_store))) [11%N; 12%N] ->
   exists k st',
     addAlertWithCondition [11%N; 12%N] 500%Z crossing_up ex_store = Some (k, st')).
Proof.
  apply (generated_ids_are_fresh ex_ops ex_store [11%N; 12%N] 500%Z crossing_up).
  vm_compute. reflexivity.
Defined.

(** ** Import skips what it cannot take *)

Lemma importable_id rec :
  importable rec = true -> exists k, i_id rec = Some k /\ id_of rec = Some k.
Proof.
  unfold importable, id_of. destruct (i_id rec) as [s|]; [|discriminate].
  destruct (String.eqb s ""); [discriminate|]. eauto.
Qed.

Lemma import_one_skip rec st : importable rec = false -> import_one rec st = st.
Proof.
  unfold importable, import_one.
  destruct (id_of rec), (number_of (i_price rec)),
    (truthy (i_triggered rec)); simpl; congruence.
Qed.

Lemma import_loop_filter records st :
  import_loop records st = import_loop (filter importable records) st.
Proof.
  unfold import_loop. revert st.
  induction records as [|rec records IH]; simpl; intros st; [reflexivity|].
  destruct (importable rec) eqn:E; simpl.
  - apply IH.
  - rewrite import_one_skip by assumption. apply IH.
Qed.

Lemma import_one_alerts rec st :
  importable rec = true ->
  exists k, i_id rec = Some k /\
    _alerts (import_one rec st) =
    JsMap.set k (List.length (objects st)) (_alerts st).
Proof.
  intros H. destruct (importable_id rec H) as (k & Hk & Hid). exists k.
  split; [assumption|]. unfold importable, import_one in *. rewrite Hid in *.
  destruct (number_of (i_price rec)); [|discriminate].
  destruct (truthy (i_triggered rec)); [discriminate|]. reflexivity.
Qed.

Lemma import_one_has_mono rec st k :
  JsMap.has k (_alerts st) = true ->
  JsMap.has k (_alerts (import_one rec st)) = true.
Proof.
  intros H. destruct (importable rec) eqn:E.
  - destruct (import_one_alerts rec st E) as (k' & _ & ->).
    apply jsmap_has_keys. rewrite jsmap_keys_set.
    apply jsmap_has_keys in H.
    destruct (JsMap.has k' (_alerts st)); [|apply in_or_app]; auto.
  - now rewrite import_one_skip.
Qed.

Lemma import_loop_has_mono records st k :
  JsMap.has k (_alerts st) = true ->
  JsMap.has k (_alerts (import_loop records st)) = true.
Proof.
  unfold import_loop. revert st.
  induction records as [|rec records IH]; simpl; intros st H; [assumption|].
  apply IH. now apply import_one_has_mono.
Qed.

Lemma import_one_get_other rec st k :
  (importable rec = true -> i_id rec <> Some k) ->
  JsMap.get k (_alerts (import_one rec st)) = JsMap.get k (_alerts st).
Proof.
  intros H. destruct (importable rec) eqn:E.
  - destruct (import_one_alerts rec st E) as (k' & Hk' & ->).
    apply jsmap_get_set_ne. intros ->. now apply H.
  - now rewrite import_one_skip.
Qed.

(** ** Export followed by import *)

Lemma export_stored now st :
  exportAlerts now st = map (serialize now) (nontool st).
Proof.
  unfold exportAlerts, nontool, stored, deref.
  induction (_alerts st) as [|[k r] m IH]; simpl; [reflexivity|].
  destruct (nth_error (objects st) r) as [a|]; simpl; [|exact IH].
  destruct (is_tool a); simpl; [exact IH | now rewrite IH].
Qed.

Lemma import_one_exported now a st :
  id a <> ""%string ->
  import_one (as_import (serialize now a)) st =
  with_alerts (JsMap.set (id a) (List.length (objects st)) (_alerts st))
    (snd (alloc (reimported a) st)).
Proof.
  intros Hne. unfold import_one, id_of. simpl.
  destruct (String.eqb_spec (id a) ""); [contradiction | reflexivity].
Qed.

Lemma import_loop_exported now l st :
  NoDup (map id l) ->
  (forall a, In a l -> id a <> ""%string /\ JsMap.has (id a) (_alerts st) = false) ->
  let st' := import_loop (map (fun a => as_import (serialize now a)) l) st in
  objects st' = objects st ++ map reimported l /\
  _alerts st' =
    _alerts st ++ combine (map id l) (seq (List.length (objects st)) (List.length l)).
Proof.
  unfold import_loop. revert st.
  induction l as [|a l IH]; simpl; intros st Hnd Hfresh.
  - now rewrite !app_nil_r.
  - inversion Hnd as [|? ? Hnotin Hnd']; subst.
    destruct (Hfresh a (or_introl eq_refl)) as [Hne Hnew].
    rewrite import_one_exported by assumption.
    rewrite jsmap_set_fresh by assumption.
    destruct (IH (with_alerts (_alerts st ++ [(id a, List.length (objects st))])
                    (snd (alloc (reimported a) st))) Hnd') as [Ho Ha].
    { intros b Hb. destruct (Hfresh b (or_intror Hb)) as [Hbne Hbnew].
      split; [assumption|]. simpl.
      apply jsmap_not_has_keys. unfold JsMap.keys. rewrite map_app.
      rewrite in_app_iff. simpl. intros [Hin|[E|[]]].
      - apply jsmap_not_has_keys in Hbnew. contradiction.
      - apply Hnotin. rewrite E. now apply in_map. }
    split; [etransitivity; [exact Ho|] | etransitivity; [exact Ha|]]; simpl.
    + now rewrite <- app_assoc.
    + rewrite <- app_assoc, length_app. simpl. now rewrite Nat.add_1_r.
Qed.

Lemma values_combine_seq (ids : list string) s :
  JsMap.values (combine ids (seq s (List.length ids))) = seq s (List.length ids).
Proof.
  unfold JsMap.values. revert s.
  induction ids as [|k ids IH]; simpl; intros s; [reflexivity|].
  now rewrite IH.
Qed.

Lemma keys_combine_seq (ids : list string) s :
  JsMap.keys (combine ids (seq s (List.length ids))) = ids.
Proof.
  unfold JsMap.keys. revert s.
  induction ids as [|k ids IH]; simpl; intros s; [reflexivity|].
  now rewrite IH.
Qed.

Lemma deref_appended (o l : list UserAlertInfo) :
  flat_map (fun r => match nth_error (o ++ l) r with
                     | Some a => [a] | None => [] end)
           (seq (List.length o) (List.length l)) = l.
Proof.
  revert o. induction l as [|x l IH]; simpl; intros o; [reflexivity|].
  rewrite nth_error_app2, Nat.sub_diag by lia. simpl. f_equal.
  specialize (IH (o ++ [x])).
  rewrite <- app_assoc, length_app, Nat.add_1_r in IH. exact IH.
Qed.

Lemma NoDup_map_injective {A B} (f : A -> B) l a b :
  NoDup (map f l) -> In a l -> In b l -> f a = f b -> a = b.
Proof.
  induction l as [|x l IH]; simpl; [tauto|].
  intros Hnd Ha Hb E. inversion Hnd as [|? ? Hnot Hnd']; subst.
  destruct Ha as [->|Ha], Hb as [->|Hb]; auto.
  - exfalso. apply Hnot. rewrite E. now apply in_map.
  - exfalso. apply Hnot. rewrite <- E. now apply in_map.
Qed.

Lemma NoDup_map_filter {A B} (f : A -> B) (keep : A -> bool) l :
  NoDup (map f l) -> NoDup (map f (filter keep l)).
Proof.
  induction l as [|x l IH]; simpl; [auto|].
  intros Hnd. inversion Hnd as [|? ? Hnot Hnd']; subst.
  destruct (keep x); simpl; [|auto].
  constructor; [|auto].
  intros Hin. apply Hnot. apply in_map_iff in Hin as (y & E & Hy).
  apply filter_In in Hy as [Hy _]. rewrite <- E. now apply in_map.
Qed.

Lemma same_alert_reimported a : same_alert a (reimported a).
Proof.
  unfold same_alert, reimported. simpl. repeat split.
  destruct (condition a); [reflexivity | congruence].
Qed.

Lemma stored_after_import now st st0 :
  wf st -> _alerts st0 = [] ->
  let st' := importAlerts (ArrayOf (map as_import (exportAlerts now st))) st0 in
  stored st' = map reimported (nontool st) /\
  JsMap.keys (_alerts st') = map id (nontool st).
Proof.
  intros Hwf Hempty st'.
  assert (Ho : objects st' =
               objects (import_loop
                 (map (fun a => as_import (serialize now a)) (nontool st)) st0)).
  { unfold st', importAlerts. rewrite export_stored, map_map.
    destruct (0 <? _)%nat; [apply objects_fire_alertsChanged | reflexivity]. }
  assert (Ha : _alerts st' =
               _alerts (import_loop
                 (map (fun a => as_import (serialize now a)) (nontool st)) st0)).
  { unfold st', importAlerts. rewrite export_stored, map_map.
    destruct (0 <? _)%nat; [apply _alerts_fire_alertsChanged | reflexivity]. }
  destruct (import_loop_exported now (nontool st) st0) as [Ho' Ha'].
  { apply NoDup_map_filter. now apply stored_ids_NoDup. }
  { intros a Hin. split.
    - apply (wf_nonempty st Hwf). rewrite <- stored_ids by assumption.
      apply in_map. unfold nontool in Hin. now apply filter_In in Hin.
    - now rewrite Hempty. }
  rewrite Hempty in Ha'. simpl in Ha'.
  rewrite Ho' in Ho. rewrite Ha' in Ha. split.
  - unfold stored, deref. rewrite Ho, Ha.
    rewrite <- (length_map id (nontool st)), values_combine_seq.
    rewrite length_map, <- (length_map reimported (nontool st)).
    apply deref_appended.
  - rewrite Ha. rewrite <- (length_map id (nontool st)).
    apply keys_combine_seq.
Qed.

Lemma wf_empty st0 : _alerts st0 = [] -> wf st0.
Proof.
  intros H. split; unfold valid_entries; rewrite H; simpl;
    [constructor | intros k r [] | intros k []].
Qed.

Lemma stored_In_get st a :
  wf st -> In a (stored st) ->
  exists r, JsMap.get (id a) (_alerts st) = Some r /\ deref st r = Some a.
Proof.
  intros Hwf Hin. unfold stored in Hin.
  apply in_flat_map in Hin as (r & Hr & Ha).
  unfold JsMap.values in Hr. apply in_map_iff in Hr as ([k r'] & E & Hkr).
  simpl in E. subst r'.
  destruct (wf_entries st Hwf k r Hkr) as (b & Hb & Hid).
  unfold deref in *. rewrite Hb in Ha. destruct Ha as [<-|[]].
  exists r. split; [|assumption].
  rewrite Hid. apply jsmap_In_get; [apply Hwf | assumption].
Qed.

(** C1.  For a well-formed store (each alert filed under its own non-empty
    id, as every operation of the store keeps it), [exportAlerts] returns
    one record for each alert whose type is not ['tool'], in map order, with
    the alert's id, price, condition (['crossing'] where it has none),
    notifications, symbol and exchange and with type ['price']; no record
    has the id of an alert of type ['tool'].  Importing the export into an
    empty store yields, under the same keys and in the same order, one alert
    per exported one with the same id, price, condition, notifications,
    symbol and exchange, and no entry for any tool alert. *)
Theorem export_import_round_trip st st0 now :
  wf st -> _alerts st0 = [] ->
  let exported := exportAlerts now st in
  let st' := importAlerts (ArrayOf (map as_import exported)) st0 in
  let price_alerts :=
    filter (fun a => match type a with Some TypeTool => false | _ => true end)
           (stored st) in
  map s_id exported = map id price_alerts /\
  Forall (fun s => s_type s = TypePrice) exported /\
  (forall a, In a (stored st) -> type a = Some TypeTool ->
     ~ In (id a) (map s_id exported)) /\
  (forall a, In a (stored st) -> type a <> Some TypeTool ->
     exists s, In s exported /\
       s_id s = id a /\ s_price s = price a /\
       s_condition s = condition_or_crossing (condition a) /\
       s_notifications s = notifications a /\
       s_symbol s = symbol a /\ s_exchange s = exchange a) /\
  JsMap.keys (_alerts st') = map id price_alerts /\
  Forall2 same_alert price_alerts (stored st') /\
  Forall (fun a' => type a' = Some TypePrice) (stored st') /\
  (forall a, In a (stored st) -> type a <> Some TypeTool ->
     exists r a', JsMap.get (id a) (_alerts st') = Some r /\
                  deref st' r = Some a' /\ same_alert a a') /\
  (forall a, In a (stored st) -> type a = Some TypeTool ->
     JsMap.has (id a) (_alerts st') = false).
Proof.
  intros Hwf Hempty exported st' price_alerts.
  assert (Hprice : price_alerts = nontool st).
  { unfold price_alerts, nontool. apply filter_ext. intros a.
    unfold is_tool. now destruct (type a) as [[|]|]. }
  destruct (stored_after_import now st st0 Hwf Hempty) as [Hstored Hkeys].
  fold exported in Hstored, Hkeys. fold st' in Hstored, Hkeys.
  assert (Hexp : exported = map (serialize now) price_alerts)
    by (rewrite Hprice; apply export_stored).
  rewrite <- Hprice in Hstored, Hkeys.
  assert (Hwf' : wf st').
  { unfold st'. apply wf_importAlerts. now apply wf_empty. }
  assert (Hin_price : forall a, In a (stored st) -> type a <> Some TypeTool ->
                                In a price_alerts).
  { intros a Hin Ht. apply filter_In. split; [assumption|].
    destruct (type a) as [[|]|]; congruence. }
  assert (Htool : forall a, In a (stored st) -> type a = Some TypeTool ->
                            ~ In (id a) (map id price_alerts)).
  { intros a Hin Ht Hid. apply in_map_iff in Hid as (b & E & Hb).
    apply filter_In in Hb as [Hb Hbt].
    assert (b = a).
    { eapply (NoDup_map_injective id); eauto. now apply stored_ids_NoDup. }
    subst b. rewrite Ht in Hbt. discriminate. }
  split; [now rewrite Hexp, map_map|].
  split; [|split; [|split; [|split; [|split; [|split; [|split]]]]]].
  - rewrite Hexp. apply Forall_forall. intros s Hs.
    apply in_map_iff in Hs as (a & <- & _). reflexivity.
  - intros a Hin Ht. rewrite Hexp, map_map. simpl. now apply Htool.
  - intros a Hin Ht. exists (serialize now a). split.
    + rewrite Hexp. apply in_map. now apply Hin_price.
    + repeat split.
  - exact Hkeys.
  - rewrite Hstored. clear.
    induction price_alerts as [|a l IH]; simpl; constructor;
      [apply same_alert_reimported | exact IH].
  - rewrite Hstored. apply Forall_forall. intros a' Ha'.
    apply in_map_iff in Ha' as (a & <- & _). reflexivity.
  - intros a Hin Ht.
    assert (Hre : In (reimported a) (stored st')).
    { rewrite Hstored. apply in_map. now apply Hin_price. }
    destruct (stored_In_get st' (reimported a) Hwf' Hre) as (r & Hget & Hderef).
    exists r, (reimported a). split; [exact Hget|].
    split; [exact Hderef | apply same_alert_reimported].
  - intros a Hin Ht. apply jsmap_not_has_keys. rewrite Hkeys.
    now apply Htool.
Qed.

Lemma C1_witness :
  let exported := exportAlerts 1700000000000 ex_tool_store in
  let st' := importAlerts (ArrayOf (map as_import exported)) constructor in
  let price_alerts :=
    filter (fun a => match type a with Some TypeTool => false | _ => true end)
           (stored ex_tool_store) in
  (map id (stored ex_tool_store) = ["a"; "t"; "b"]%string /\
   map s_id exported = ["a"; "b"]%string /\
   JsMap.keys (_alerts st') = ["a"; "b"]%string) /\
  map s_id exported = map id price_alerts /\
  Forall (fun s => s_type s = TypePrice) exported /\
  (forall a, In a (stored ex_tool_store) -> type a = Some TypeTool ->
     ~ In (id a) (map s_id exported)) /\
  (forall a, In a (stored ex_tool_store) -> type a <> Some TypeTool ->
     exists s, In s exported /\
       s_id s = id a /\ s_price s = price a /\
       s_condition s = condition_or_crossing (condition a) /\
       s_notifications s = notifications a /\
       s_symbol s = symbol a /\ s_exchange s = exchange a) /\
  JsMap.keys (_alerts st') = map id price_alerts /\
  Forall2 same_alert price_alerts (stored st') /\
  Forall (fun a' => type a' = Some TypePrice) (stored st') /\
  (forall a, In a (stored ex_tool_store) -> type a <> Some TypeTool ->
     exists r a', JsMap.get (id a) (_alerts st') = Some r /\
                  deref st' r = Some a' /\ same_alert a a') /\
  (forall a, In a (stored ex_tool_store) -> type a = Some TypeTool ->
     JsMap.has (id a) (_alerts st') = false).
Proof.
  split; [repeat split|].
  apply (export_import_round_trip ex_tool_store constructor 1700000000000).
  - split.
    + simpl. repeat constructor; simpl; intuition discriminate.
    + intros k r. simpl.
      intros [E|[E|[E|[]]]]; injection E as <- <-; eexists; split; reflexivity.
    + intros k. simpl. intros [<-|[<-|[<-|[]]]]; discriminate.
  - reflexivity.
Defined.

(** ** The time stamp of an export *)

Lemma nontool_In st a :
  In a (stored st) -> type a <> Some TypeTool -> In a (nontool st).
Proof.
  intros Hin Ht. apply filter_In. split; [assumption|].
  unfold is_tool. destruct (type a) as [[|]|]; simpl; congruence.
Qed.

(** C10.  Every alert of the store whose type is not ['tool'] has a record in
    each export, and that record carries the clock value of that call of
    [exportAlerts] as [createdAt]: every record of an export does.  Two
    exports of an unchanged store at different times have one record per
    such alert each and agree record by record on everything but
    [createdAt], where they differ.  An export that follows an import of an
    earlier export into an empty store again has a record for each such
    alert, stamped with its own call time, not the earlier one. *)
Theorem export_stamps_time_of_call st t1 t2 :
  t1 <> t2 ->
  Forall (fun s => s_createdAt s = t1) (exportAlerts t1 st) /\
  exportAlerts t2 st = map (restamp t2) (exportAlerts t1 st) /\
  (forall i s1 s2,
     nth_error (exportAlerts t1 st) i = Some s1 ->
     nth_error (exportAlerts t2 st) i = Some s2 ->
     s2 = restamp t2 s1 /\ s_createdAt s1 <> s_createdAt s2) /\
  (forall st0,
     Forall (fun s => s_createdAt s = t2 /\ s_createdAt s <> t1)
       (exportAlerts t2
          (importAlerts (ArrayOf (map as_import (exportAlerts t1 st))) st0))) /\
  List.length (exportAlerts t1 st) =
    List.length
      (filter (fun a => match type a with Some TypeTool => false | _ => true end)
              (stored st)) /\
  (forall a, In a (stored st) -> type a <> Some TypeTool ->
     exists s1 s2,
       In s1 (exportAlerts t1 st) /\ In s2 (exportAlerts t2 st) /\
       s_id s1 = id a /\ s_id s2 = id a /\
       s_price s1 = price a /\ s_price s2 = price a /\
       s_createdAt s1 = t1 /\ s_createdAt s2 = t2 /\
       s_createdAt s1 <> s_createdAt s2) /\
  (wf st ->
   forall st0 a, _alerts st0 = [] ->
     In a (stored st) -> type a <> Some TypeTool ->
     exists s1 s3,
       In s1 (exportAlerts t1 st) /\
       In s3 (exportAlerts t2
                (importAlerts (ArrayOf (map as_import (exportAlerts t1 st)))
                   st0)) /\
       s_id s1 = id a /\ s_id s3 = id a /\
       s_price s1 = price a /\ s_price s3 = price a /\
       s_createdAt s1 = t1 /\ s_createdAt s3 = t2 /\
       s_createdAt s1 <> s_createdAt s3).
Proof.
  intros Hne.
  pose proof (export_entries_createdAt t1 (objects st) (_alerts st)) as H1.
  pose proof (export_entries_restamp t1 t2 (objects st) (_alerts st)) as H2.
  fold (exportAlerts t1 st) in H1, H2. fold (exportAlerts t2 st) in H2.
  split; [exact H1|]. split; [exact H2|].
  split; [|split; [|split; [|split]]].
  - intros i s1 s2 Hs1 Hs2.
    rewrite H2, nth_error_map, Hs1 in Hs2. injection Hs2 as <-.
    split; [reflexivity|]. simpl.
    rewrite Forall_forall in H1. rewrite (H1 s1); [congruence|].
    eapply nth_error_In; eauto.
  - intros st0. eapply Forall_impl; [|apply export_entries_createdAt].
    simpl. intros s ->. split; congruence.
  - rewrite export_stored, length_map. unfold nontool. f_equal.
    apply filter_ext. intros a. unfold is_tool.
    now destruct (type a) as [[|]|].
  - intros a Hin Ht. exists (serialize t1 a), (serialize t2 a).
    rewrite !export_stored.
    split; [apply in_map; now apply nontool_In|].
    split; [apply in_map; now apply nontool_In|].
    simpl. repeat split; congruence.
  - intros Hwf st0 a Hempty Hin Ht.
    destruct (stored_after_import t1 st st0 Hwf Hempty) as [Hstored _].
    exists (serialize t1 a), (serialize t2 (reimported a)).
    split; [rewrite export_stored; apply in_map; now apply nontool_In|].
    split.
    + rewrite export_stored. apply in_map. apply nontool_In.
      * rewrite Hstored. apply in_map. now apply nontool_In.
      * simpl. discriminate.
    + simpl. repeat split; congruence.
Qed.

Lemma C10_witness :
  (1000 <> 2000)%Z /\ wf ex_store /\
  (map s_id (exportAlerts 1000 ex_store) = map id (stored ex_store) /\
   map s_createdAt (exportAlerts 1000 ex_store) = [1000; 1000; 1000]%Z /\
   map s_createdAt (exportAlerts 2000 ex_store) = [2000; 2000; 2000]%Z /\
   map s_createdAt
     (exportAlerts 2000
        (importAlerts (ArrayOf (map as_import (exportAlerts 1000 ex_store)))
           constructor)) = [2000; 2000; 2000]%Z) /\
  Forall (fun s => s_createdAt s = 1000%Z) (exportAlerts 1000 ex_store) /\
  exportAlerts 2000 ex_store = map (restamp 2000) (exportAlerts 1000 ex_store) /\
  (forall i s1 s2,
     nth_error (exportAlerts 1000 ex_store) i = Some s1 ->
     nth_error (exportAlerts 2000 ex_store) i = Some s2 ->
     s2 = restamp 2000 s1 /\ s_createdAt s1 <> s_createdAt s2) /\
  (forall st0,
     Forall (fun s => s_createdAt s = 2000%Z /\ s_createdAt s <> 1000%Z)
       (exportAlerts 2000
          (importAlerts (ArrayOf (map as_import (exportAlerts 1000 ex_store)))
             st0))) /\
  List.length (exportAlerts 1000 ex_store) =
    List.length
      (filter (fun a => match type a with Some TypeTool => false | _ => true end)
              (stored ex_store)) /\
  (forall a, In a (stored ex_store) -> type a <> Some TypeTool ->
     exists s1 s2,
       In s1 (exportAlerts 1000 ex_store) /\
       In s2 (exportAlerts 2000 ex_store) /\
       s_id s1 = id a /\ s_id s2 = id a /\
       s_price s1 = price a /\ s_price s2 = price a /\
       s_createdAt s1 = 1000%Z /\ s_createdAt s2 = 2000%Z /\
       s_createdAt s1 <> s_createdAt s2) /\
  (forall st0 a, _alerts st0 = [] ->
     In a (stored ex_store) -> type a <> Some TypeTool ->
     exists s1 s3,
       In s1 (exportAlerts 1000 ex_store) /\
       In s3 (exportAlerts 2000
                (importAlerts
                   (ArrayOf (map as_import (exportAlerts 1000 ex_store)))
                   st0)) /\
       s_id s1 = id a /\ s_id s3 = id a /\
       s_price s1 = price a /\ s_price s3 = price a /\
       s_createdAt s1 = 1000%Z /\ s_createdAt s3 = 2000%Z /\
       s_createdAt s1 <> s_createdAt s3).
Proof.
  assert (Hne : (1000 <> 2000)%Z) by discriminate.
  assert (Hwf : wf ex_store).
  { apply (wf_run_ops ex_ops constructor ex_store wf_constructor).
    vm_compute. reflexivity. }
  split; [exact Hne|]. split; [exact Hwf|].
  split; [repeat split|].
  destruct (export_stamps_time_of_call ex_store 1000 2000 Hne)
    as (H1 & H2 & H3 & H4 & H5 & H6 & H7).
  repeat (split; [assumption|]). exact (H7 Hwf).
Defined.

(** ** The first evaluation of a scalar alert *)

(** C2.  For an alert with a scalar condition, the first evaluation after
    its creation emits no trigger, whatever the current price (so also when
    the price is already on the side where the condition is met), and it
    records the position of the price as [initialPricePosition] and as the
    last known position. *)
Theorem first_evaluation_never_triggers at_threshold a current :
  Evaluator.is_scalar (condition_or_crossing (condition a)) = true ->
  let pos := Evaluator.position_of at_threshold current (price a) in
  let result := Evaluator.evaluate at_threshold current (Evaluator.created a) in
  snd result = false /\
  initialPricePosition (Evaluator.info (fst result)) = Some pos /\
  Evaluator.lastPosition (fst result) = Some pos /\
  id (Evaluator.info (fst result)) = id a /\
  price (Evaluator.info (fst result)) = price a /\
  condition (Evaluator.info (fst result)) = condition a.
Proof.
  intros _ pos result. unfold result, Evaluator.evaluate, Evaluator.created.
  simpl. repeat split.
Qed.

Lemma C2_witness :
  Evaluator.trigger_side crossing_up
    (Evaluator.position_of above 150 (price ex_alert)) = true /\
  let pos := Evaluator.position_of above 150 (price ex_alert) in
  let result := Evaluator.evaluate above 150 (Evaluator.created ex_alert) in
  snd result = false /\
  initialPricePosition (Evaluator.info (fst result)) = Some pos /\
  Evaluator.lastPosition (fst result) = Some pos /\
  id (Evaluator.info (fst result)) = id ex_alert /\
  price (Evaluator.info (fst result)) = price ex_alert /\
  condition (Evaluator.info (fst result)) = condition ex_alert.
Proof.
  split; [reflexivity|].
  apply (first_evaluation_never_triggers above ex_alert 150). reflexivity.
Defined.

(** Later evaluations do trigger: below, then above, fires [crossing_up] and
    forces [initialPricePosition] to [unknown]. *)
Example second_evaluation_triggers :
  let t1 := fst (Evaluator.evaluate above 90 (Evaluator.created ex_alert)) in
  let r2 := Evaluator.evaluate above 110 t1 in
  snd r2 = true /\
  initialPricePosition (Evaluator.info (fst r2)) = Some unknown.
Proof. split; reflexivity. Qed.

(** ** The dispatcher: replacing a toast, and [destroy] *)

Import AlertNotification.

(** Right after [show] returns, the map holds the element just created for
    the alert and that element is in the container. *)
Lemma show_tracks_new_toast data d c :
  _container d = Some c ->
  match notificationSettings data with
  | Some s => showToast s = true
  | None => True
  end ->
  exists n,
    JsMap.get (alertId data) (_notifications (show data d)) = Some n /\
    In n (container_children (show data d)) /\
    (next_node d <= n)%nat.
Proof.
  intros Hc Htoast. unfold show. rewrite Hc.
  assert (Hwant : match notificationSettings data with
                  | Some s => showToast s | None => true end = true).
  { destruct (notificationSettings data); auto. }
  rewrite Hwant.
  set (d0 := if JsMap.has (alertId data) (_notifications d)
             then dismiss (alertId data) d else d).
  assert (Hnode : (next_node d <= next_node d0)%nat).
  { unfold d0, dismiss. destruct (JsMap.has _ _); [|lia].
    destruct (JsMap.get (alertId data) (_dismissTimeouts d)) as [h|];
      [destruct (h =? 0)%nat|]; simpl;
      match goal with
      | |- context [JsMap.get ?k ?m] => destruct (JsMap.get k m)
      end; simpl; lia. }
  exists (next_node d0). split; [|split; [|exact Hnode]].
  - simpl.
    destruct (match notificationSettings data with
              | Some s => playSound s | None => true end),
             (match notificationSettings data with
              | Some s => webhookEnabled s | None => false end);
      simpl; apply jsmap_get_set_eq.
  - simpl.
    destruct (match notificationSettings data with
              | Some s => playSound s | None => true end),
             (match notificationSettings data with
              | Some s => webhookEnabled s | None => false end);
      simpl; apply in_or_app; right; now left.
Qed.

(** The mechanism, in general: [show] on an alert that has a live toast
    leaves the 300 ms timer of the old toast pending, and the callback of
    that timer deletes whatever the map holds for the alert. *)
Lemma dismiss_schedules_removal k n d :
  JsMap.get k (_notifications d) = Some n ->
  exists d1,
    dismiss k d = snd (setTimeout (RemoveNotification n k) 300 d1) /\
    _notifications d1 = _notifications d.
Proof.
  intros Hn. unfold dismiss.
  set (d1 := match JsMap.get k (_dismissTimeouts d) with
             | Some timeoutId => _
             | None => d
             end).
  assert (H1 : _notifications d1 = _notifications d).
  { unfold d1. destruct (JsMap.get k (_dismissTimeouts d)) as [h|];
      [destruct (h =? 0)%nat|]; reflexivity. }
  rewrite H1, Hn.
  exists (with_dismissing (n :: dismissing d1) d1). split; [reflexivity|].
  exact H1.
Qed.

Lemma show_leaves_stale_removal_timer data d c n_old :
  _container d = Some c ->
  match notificationSettings data with
  | Some s => showToast s = true
  | None => True
  end ->
  JsMap.get (alertId data) (_notifications d) = Some n_old ->
  In (RemoveNotification n_old (alertId data))
     (map callback (timers (show data d))).
Proof.
  intros Hc Htoast Hold. unfold show. rewrite Hc.
  assert (Hwant : match notificationSettings data with
                  | Some s => showToast s | None => true end = true).
  { destruct (notificationSettings data); auto. }
  rewrite Hwant.
  assert (Hhas : JsMap.has (alertId data) (_notifications d) = true).
  { apply jsmap_has_get. eauto. }
  rewrite Hhas.
  destruct (dismiss_schedules_removal _ _ _ Hold) as (d1 & -> & _).
  destruct (match notificationSettings data with
            | Some s => playSound s | None => true end),
           (match notificationSettings data with
            | Some s => webhookEnabled s | None => false end);
    simpl; rewrite !map_app, !in_app_iff; simpl; auto.
Qed.

Lemma stale_removal_untracks k n d :
  NoDup (JsMap.keys (_notifications d)) ->
  JsMap.get k (_notifications (run_callback (RemoveNotification n k) d)) = None.
Proof. intros Hnd. simpl. now apply jsmap_get_delete_eq. Qed.

(** C7 on the code.  The alert "a" is shown twice in a row.  After the second
    [show] the map holds the new element 2 and the old element 1 is being
    dismissed.  When the 300 ms timer of that dismissal runs it deletes the
    map entry of "a", which by then is the new toast's: the new element is
    still in the container but no longer tracked, [dismiss "a"] no longer
    removes it, and neither does its own auto-dismiss timer. *)
Theorem replaced_toast_becomes_untracked :
  let after_second_show := ex_shown_twice in
  let later := elapse 10 300 after_second_show in
  let after_dismiss := elapse 10 1000 (dismiss "a" later) in
  let much_later := elapse 10 120000 later in
  JsMap.get "a" (_notifications after_second_show) = Some 2%nat /\
  container_children after_second_show = [1%nat; 2%nat] /\
  JsMap.get "a" (_notifications later) = None /\
  on_screen 2 later = true /\
  on_screen 2 after_dismiss = true /\ timers after_dismiss = [] /\
  on_screen 2 much_later = true /\ timers much_later = [].
Proof. vm_compute. repeat split. Qed.

(** [destroy] cancels the tracked auto-dismiss timers, and then schedules one
    untracked timer for every notification it dismisses. *)
Lemma dismiss_all_timers (entries : JsMap.t node) d :
  _dismissTimeouts d = [] ->
  (forall e, In e entries -> exists n, JsMap.get (fst e) (_notifications d) = Some n) ->
  let d' := fold_left (fun acc e => dismiss (fst e) acc) entries d in
  List.length (timers d') = (List.length (timers d) + List.length entries)%nat /\
  body_toasts d' = body_toasts d.
Proof.
  revert d. induction entries as [|e entries IH]; simpl; intros d Hto Hall.
  - split; [lia | reflexivity].
  - destruct (Hall e (or_introl eq_refl)) as [n Hn].
    assert (Hd : dismiss (fst e) d =
                 snd (setTimeout (RemoveNotification n (fst e)) 300
                        (with_dismissing (n :: dismissing d) d))).
    { unfold dismiss. rewrite Hto. simpl. now rewrite Hn. }
    destruct (IH (dismiss (fst e) d)) as [Hlen Hbody].
    + rewrite Hd. exact Hto.
    + intros e' He'. rewrite Hd. simpl. apply Hall. now right.
    + split.
      * etransitivity; [exact Hlen|]. rewrite Hd. simpl.
        rewrite length_app. simpl. lia.
      * etransitivity; [exact Hbody|]. now rewrite Hd.
Qed.

Lemma clear_all_frame (l : JsMap.t nat) d :
  let d' := fold_left (fun acc e => clearTimeout (snd e) acc) l d in
  _notifications d' = _notifications d /\ body_toasts d' = body_toasts d.
Proof.
  revert d. induction l as [|e l IH]; simpl; intros d; [auto|].
  destruct (IH (clearTimeout (snd e) d)) as [-> ->]. auto.
Qed.

Lemma destroy_leaves_a_timer_per_notification d :
  (List.length (_notifications d) <= List.length (timers (destroy d)))%nat /\
  body_toasts (destroy d) = body_toasts d.
Proof.
  unfold destroy. simpl.
  set (d1 := fold_left (fun acc e => clearTimeout (snd e) acc)
                       (_dismissTimeouts d) d).
  destruct (clear_all_frame (_dismissTimeouts d) d) as [Hn Hb].
  fold d1 in Hn, Hb.
  destruct (dismiss_all_timers (_notifications d1)
              (with_dismissTimeouts JsMap.empty d1)) as [Hlen Hbody].
  - reflexivity.
  - intros [k n] Hin. simpl.
    clear - Hin. induction (_notifications d1) as [|[k' n'] m IH];
      simpl in *; [contradiction|].
    destruct (String.eqb_spec k k'); [eauto|].
    destruct Hin as [[= -> ->]|Hin]; [contradiction | auto].
  - simpl in Hlen, Hbody. split.
    + rewrite <- Hn. simpl. lia.
    + etransitivity; [exact Hbody|]. exact Hb.
Qed.

(** C8 on the code.  With one live notification and one webhook result
    toast, [destroy] removes the container and empties the timer map, but
    two timers stay pending (the result toast's 60 s timer, which was never
    tracked, and the 300 ms timer that [destroy] itself starts by calling
    [dismiss]), the result toast stays in the document, and the map still
    holds the notification.  Both timers then fire. *)
Theorem destroy_leaves_timers_pending :
  let d := destroy ex_with_result_toast in
  List.length (_notifications ex_with_result_toast) = 1%nat /\
  List.length (body_toasts ex_with_result_toast) = 1%nat /\
  _container d = None /\ container_in_body d = false /\
  _dismissTimeouts d = [] /\
  map callback (timers d) = [FadeResultToast 2; RemoveNotification 1 "a"] /\
  body_toasts d = [(2%nat, 2%nat)] /\
  _notifications d = [("a"%string, 1%nat)] /\
  option_map (fun r => callback (fst r)) (fire_next d)
    = Some (RemoveNotification 1 "a") /\
  option_map (fun r => callback (fst r))
    (match fire_next d with Some (_, d') => fire_next d' | None => None end)
    = Some (FadeResultToast 2).
Proof. vm_compute. repeat split. Qed.

(* ===================================================================== *)
(** * Further properties of the store *)
(* ===================================================================== *)

Section MoreJsMapFacts.
Context {V : Type}.
Implicit Types (m : JsMap.t V) (k : string) (v : V).

Lemma jsmap_get_delete_ne k k' m :
  k <> k' -> JsMap.get k' (JsMap.delete k m) = JsMap.get k' m.
Proof.
  intros Hne. induction m as [|[k0 v0] m IH]; simpl; [reflexivity|].
  destruct (String.eqb_spec k k0) as [->|Hk]; simpl.
  - destruct (String.eqb_spec k' k0); congruence.
  - destruct (String.eqb_spec k' k0); congruence.
Qed.

Lemma jsmap_keys_delete k m :
  NoDup (JsMap.keys m) ->
  JsMap.keys (JsMap.delete k m) =
  filter (fun k' => negb (String.eqb k' k)) (JsMap.keys m).
Proof.
  induction m as [|[k0 v0] m IH]; simpl; [reflexivity|].
  intros Hnd. inversion Hnd as [|? ? Hnot Hnd']; subst.
  destruct (String.eqb_spec k k0) as [->|Hk]; simpl.
  - rewrite String.eqb_refl. simpl.
    symmetry. apply forallb_filter_id. apply forallb_forall.
    intros k' Hin. destruct (String.eqb_spec k' k0); [subst; contradiction|].
    reflexivity.
  - destruct (String.eqb_spec k0 k); [congruence|]. simpl.
    now rewrite IH.
Qed.

Lemma jsmap_size_delete k m :
  JsMap.has k m = true -> S (JsMap.size (JsMap.delete k m)) = JsMap.size m.
Proof.
  unfold JsMap.has, JsMap.size.
  induction m as [|[k0 v0] m IH]; simpl; [discriminate|].
  destruct (String.eqb_spec k k0) as [->|Hk]; simpl; [reflexivity|].
  intros H. now rewrite IH.
Qed.

Lemma jsmap_delete_absent k m :
  JsMap.has k m = false -> JsMap.delete k m = m.
Proof.
  unfold JsMap.has.
  induction m as [|[k0 v0] m IH]; simpl; [reflexivity|].
  destruct (String.eqb_spec k k0) as [->|Hk]; [discriminate|].
  intros H. now rewrite IH.
Qed.
End MoreJsMapFacts.

Lemma wf_deref st k r :
  wf st -> JsMap.get k (_alerts st) = Some r ->
  exists a, deref st r = Some a /\ id a = k.
Proof.
  intros Hwf Hget. apply jsmap_get_In in Hget.
  exact (wf_entries st Hwf k r Hget).
Qed.

(** Two keys of a well-formed store never share an object. *)
Lemma wf_refs_differ st k k' r r' :
  wf st -> k <> k' ->
  JsMap.get k (_alerts st) = Some r -> JsMap.get k' (_alerts st) = Some r' ->
  r <> r'.
Proof.
  intros Hwf Hne Hk Hk' ->.
  destruct (wf_deref st k r' Hwf Hk) as (a & Ha & Hid).
  destruct (wf_deref st k' r' Hwf Hk') as (a' & Ha' & Hid').
  congruence.
Qed.

(** X1.  [addAlertWithCondition] files the new alert last in the map, under
    the id it returns, with the given price and condition and every other
    field unset; each alert already stored stays under its key, the same
    object with the same contents. *)
Theorem add_stores_the_new_alert_and_keeps_the_others candidates p c st k st' :
  wf st ->
  addAlertWithCondition candidates p c st = Some (k, st') ->
  JsMap.keys (_alerts st') = JsMap.keys (_alerts st) ++ [k] /\
  (exists r,
     JsMap.get k (_alerts st') = Some r /\
     deref st' r =
       Some {| id := k; price := p; condition := Some c; type := None;
               toolRef := None; initialPricePosition := None;
               notifications := None; symbol := None; exchange := None |}) /\
  (forall k' r, JsMap.get k' (_alerts st) = Some r ->
     JsMap.get k' (_alerts st') = Some r /\ deref st' r = deref st r).
Proof.
  intros Hwf Hadd.
  pose proof (events_addAlertWithCondition _ _ _ _ _ _ Hadd)
    as (_ & Hfresh & _).
  apply addAlertWithCondition_unfold in Hadd as [_ ->].
  rewrite _alerts_fire_alertsChanged. unfold deref.
  rewrite objects_fire_alertsChanged. simpl.
  split; [|split].
  - rewrite jsmap_keys_set. now rewrite Hfresh.
  - exists (List.length (objects st)).
    split; [apply jsmap_get_set_eq | apply nth_error_snoc].
  - intros k' r Hget. split.
    + rewrite jsmap_get_set_ne; [assumption|].
      intros ->. apply jsmap_has_false in Hfresh. congruence.
    + destruct (wf_deref st k' r Hwf Hget) as (a & Ha & _).
      unfold deref in Ha. rewrite Ha. now apply nth_error_grow.
Qed.

Lemma wf_ex_store : wf ex_store.
Proof.
  apply (wf_run_ops ex_ops constructor ex_store wf_constructor).
  vm_compute. reflexivity.
Qed.

Lemma X1_witness :
  fst ex_added = "c"%string /\
  JsMap.keys (_alerts (snd ex_added)) = JsMap.keys (_alerts ex_store) ++ ["c"%string] /\
  (exists r,
     JsMap.get "c" (_alerts (snd ex_added)) = Some r /\
     deref (snd ex_added) r =
       Some {| id := "c"; price := 75; condition := Some crossing_down;
               type := None; toolRef := None; initialPricePosition := None;
               notifications := None; symbol := None; exchange := None |}) /\
  (forall k' r, JsMap.get k' (_alerts ex_store) = Some r ->
     JsMap.get k' (_alerts (snd ex_added)) = Some r /\
     deref (snd ex_added) r = deref ex_store r).
Proof.
  split; [reflexivity|].
  apply (add_stores_the_new_alert_and_keeps_the_others
           [10%N; 12%N] 75%Z crossing_down ex_store "c" (snd ex_added)).
  - exact wf_ex_store.
  - vm_compute. reflexivity.
Defined.

(** X2.  [removeAlert] of a stored id takes exactly that alert out: the id is
    no longer a key, the other keys keep their order, every other alert
    stays under its key with its object untouched, and the store is one
    alert smaller. *)
Theorem remove_takes_out_exactly_that_alert k st :
  wf st -> JsMap.has k (_alerts st) = true ->
  let st' := removeAlert k st in
  JsMap.has k (_alerts st') = false /\
  JsMap.keys (_alerts st') =
    filter (fun k' => negb (String.eqb k' k)) (JsMap.keys (_alerts st)) /\
  (forall k', k' <> k -> JsMap.get k' (_alerts st') = JsMap.get k' (_alerts st)) /\
  objects st' = objects st /\
  S (JsMap.size (_alerts st')) = JsMap.size (_alerts st).
Proof.
  intros Hwf Hhas st'. unfold st', removeAlert. rewrite Hhas. simpl.
  rewrite _alerts_fire_alertsChanged, objects_fire_alertsChanged. simpl.
  pose proof (wf_keys st Hwf) as Hnd.
  split; [|split; [|split; [|split]]].
  - apply jsmap_has_false. now apply jsmap_get_delete_eq.
  - now apply jsmap_keys_delete.
  - intros k' Hne. apply jsmap_get_delete_ne. congruence.
  - reflexivity.
  - now apply jsmap_size_delete.
Qed.

Lemma X2_witness :
  let st' := removeAlert "b" ex_store in
  JsMap.has "b" (_alerts st') = false /\
  JsMap.keys (_alerts st') =
    filter (fun k' => negb (String.eqb k' "b")) (JsMap.keys (_alerts ex_store)) /\
  (forall k', k' <> "b"%string ->
     JsMap.get k' (_alerts st') = JsMap.get k' (_alerts ex_store)) /\
  objects st' = objects ex_store /\
  S (JsMap.size (_alerts st')) = JsMap.size (_alerts ex_store).
Proof.
  apply (remove_takes_out_exactly_that_alert "b" ex_store).
  - exact wf_ex_store.
  - reflexivity.
Defined.

Lemma update_nth_same {A} n (f : A -> A) l x :
  nth_error l n = Some x -> f x = x -> update_nth n f l = l.
Proof.
  revert n. induction l as [|y l IH]; intros [|n]; simpl; try discriminate.
  - intros [= ->] Hf. now rewrite Hf.
  - intros H Hf. now rewrite IH.
Qed.

Lemma deref_modify r f st r' :
  deref (modify r f st) r' =
  if (r =? r')%nat then option_map f (deref st r') else deref st r'.
Proof. unfold deref, modify. simpl. apply nth_error_update_nth. Qed.

(** X3.  [updateAlert] of a stored id sets the price and the condition of
    that alert, replaces its notification settings only when settings are
    passed, and leaves its id, type, tool reference, initial position,
    symbol and exchange as they were; the map (keys, order, objects filed)
    is unchanged and so is every other alert. *)
Theorem updateAlert_changes_only_what_it_is_given k p c n st r a :
  wf st -> JsMap.get k (_alerts st) = Some r -> deref st r = Some a ->
  let st' := updateAlert k p c n st in
  _alerts st' = _alerts st /\
  deref st' r =
    Some {| id := id a; price := p; condition := Some c; type := type a;
            toolRef := toolRef a;
            initialPricePosition := initialPricePosition a;
            notifications := match n with
                             | Some n' => Some n'
                             | None => notifications a
                             end;
            symbol := symbol a; exchange := exchange a |} /\
  (forall k' r', k' <> k -> JsMap.get k' (_alerts st) = Some r' ->
     deref st' r' = deref st r').
Proof.
  intros Hwf Hget Ha st'. unfold st', updateAlert. rewrite Hget.
  rewrite _alerts_fire_alertsChanged. unfold deref at 1 2.
  rewrite objects_fire_alertsChanged.
  split; [|split].
  - now destruct n.
  - destruct n as [n'|]; simpl;
      rewrite !nth_error_update_nth, !Nat.eqb_refl;
      unfold deref in Ha; rewrite Ha; reflexivity.
  - intros k' r' Hne Hget'.
    assert (Hr : r <> r') by (eapply (wf_refs_differ st k k'); eauto).
    apply Nat.eqb_neq in Hr.
    destruct n as [n'|]; simpl;
      rewrite !nth_error_update_nth, !Hr; reflexivity.
Qed.

Lemma X3_witness :
  let a := {| id := "b"; price := 300; condition := Some crossing_down;
              type := None; toolRef := None; initialPricePosition := None;
              notifications := None; symbol := None; exchange := None |} in
  let st' := updateAlert "b" 310 crossing_up None ex_store in
  _alerts st' = _alerts ex_store /\
  deref st' 1%nat =
    Some {| id := id a; price := 310; condition := Some crossing_up;
            type := type a; toolRef := toolRef a;
            initialPricePosition := initialPricePosition a;
            notifications := notifications a;
            symbol := symbol a; exchange := exchange a |} /\
  (forall k' r', k' <> "b"%string -> JsMap.get k' (_alerts ex_store) = Some r' ->
     deref st' r' = deref ex_store r').
Proof.
  intros a.
  apply (updateAlert_changes_only_what_it_is_given
           "b" 310 crossing_up None ex_store 1%nat a).
  - exact wf_ex_store.
  - reflexivity.
  - reflexivity.
Defined.

(** X4.  [updateAlertPrice] is [updateAlert] with the alert's own condition
    and no notification settings: both calls end in the same store and fire
    the same events. *)
Theorem updateAlertPrice_is_updateAlert_with_own_condition k p c st r a :
  JsMap.get k (_alerts st) = Some r -> deref st r = Some a ->
  condition a = Some c ->
  updateAlertPrice k p st = updateAlert k p c None st.
Proof.
  intros Hget Ha Hc. unfold updateAlertPrice, updateAlert. rewrite Hget.
  assert (Hsame : modify r (set_condition c) (modify r (set_price p) st) =
                  modify r (set_price p) st).
  { unfold modify. simpl. f_equal.
    apply update_nth_same with (x := set_price p a).
    - rewrite nth_error_update_nth, Nat.eqb_refl. unfold deref in Ha.
      rewrite Ha. reflexivity.
    - unfold set_condition, set_price. simpl. now rewrite Hc. }
  now rewrite Hsame.
Qed.

Lemma X4_witness :
  updateAlertPrice "b" 310 ex_store = updateAlert "b" 310 crossing_down None ex_store.
Proof.
  apply (updateAlertPrice_is_updateAlert_with_own_condition
           "b" 310 crossing_down ex_store 1%nat
           {| id := "b"; price := 300; condition := Some crossing_down;
              type := None; toolRef := None; initialPricePosition := None;
              notifications := None; symbol := None; exchange := None |});
    reflexivity.
Defined.

(** X5.  [clearAlerts] leaves a store with no alert, from which nothing is
    exported and, for a store in use, an empty [alerts()]; a second
    [clearAlerts] changes nothing and fires nothing. *)
Theorem clearAlerts_empties_the_store st now :
  live st ->
  let st' := clearAlerts st in
  _alerts st' = [] /\
  alerts st' = [] /\
  exportAlerts now st' = [] /\
  clearAlerts st' = st'.
Proof.
  intros [Hl Harr] st'.
  assert (Hempty : _alerts st' = []).
  { unfold st', clearAlerts.
    destruct (_alerts st) as [|e m] eqn:E; simpl; [assumption|].
    now rewrite _alerts_fire_alertsChanged. }
  split; [exact Hempty|]. split; [|split].
  - unfold st', clearAlerts, alerts.
    destruct (_alerts st) as [|e m] eqn:E; simpl.
    + unfold array_ok in Harr. now rewrite Harr, E.
    + unfold fire_alertsChanged. simpl. now rewrite Hl.
  - unfold exportAlerts. now rewrite Hempty.
  - unfold clearAlerts at 1. now rewrite Hempty.
Qed.

Lemma X5_witness :
  let st' := clearAlerts ex_store in
  _alerts st' = [] /\
  alerts st' = [] /\
  exportAlerts 1000 st' = [] /\
  clearAlerts st' = st'.
Proof.
  apply (clearAlerts_empties_the_store ex_store 1000).
  split; reflexivity.
Defined.

(** ** More on import *)

Lemma import_one_built rec st :
  importable rec = true ->
  i_id rec = Some (id (alert_of_record rec)) /\
  import_one rec st =
  with_alerts (JsMap.set (id (alert_of_record rec)) (List.length (objects st))
                 (_alerts st))
    (snd (alloc (alert_of_record rec) st)).
Proof.
  unfold importable, import_one, alert_of_record, id_of. simpl.
  destruct (i_id rec) as [s|]; [|discriminate].
  destruct (String.eqb s ""); [discriminate|].
  destruct (number_of (i_price rec)); [|discriminate].
  destruct (truthy (i_triggered rec)); [discriminate|]. auto.
Qed.

Lemma import_one_objects rec st :
  exists l, objects (import_one rec st) = objects st ++ l.
Proof.
  destruct (importable rec) eqn:E.
  - destruct (import_one_built rec st E) as [_ ->]. simpl. eauto.
  - rewrite import_one_skip by assumption. exists []. now rewrite app_nil_r.
Qed.

Lemma import_loop_objects records st :
  exists l, objects (import_loop records st) = objects st ++ l.
Proof.
  unfold import_loop. revert st.
  induction records as [|rec records IH]; simpl; intros st.
  - exists []. now rewrite app_nil_r.
  - destruct (IH (import_one rec st)) as [l ->].
    destruct (import_one_objects rec st) as [l' ->].
    exists (l' ++ l). now rewrite app_assoc.
Qed.

Lemma import_loop_keys records st :
  exists added,
    JsMap.keys (_alerts (import_loop records st)) =
      JsMap.keys (_alerts st) ++ added /\
    forall k, In k added ->
      ~ In k (JsMap.keys (_alerts st)) /\
      exists rec, In rec records /\ importable rec = true /\ i_id rec = Some k.
Proof.
  unfold import_loop. revert st.
  induction records as [|rec records IH]; simpl; intros st.
  - exists []. rewrite app_nil_r. split; [reflexivity | intros k []].
  - destruct (IH (import_one rec st)) as (added & Hkeys & Hadded).
    destruct (importable rec) eqn:E.
    + destruct (import_one_built rec st E) as [Hid Hone].
      assert (Hk1 : JsMap.keys (_alerts (import_one rec st)) =
                    if JsMap.has (id (alert_of_record rec)) (_alerts st)
                    then JsMap.keys (_alerts st)
                    else JsMap.keys (_alerts st) ++ [id (alert_of_record rec)]).
      { rewrite Hone. cbn [_alerts with_alerts]. apply jsmap_keys_set. }
      rewrite Hk1 in Hkeys, Hadded.
      destruct (JsMap.has (id (alert_of_record rec)) (_alerts st)) eqn:Hhas.
      * exists added. split; [exact Hkeys|].
        intros k Hk. destruct (Hadded k Hk) as (Hnot & r' & Hin & Hr').
        split; [assumption|]. exists r'. auto.
      * exists (id (alert_of_record rec) :: added).
        split; [now rewrite Hkeys, <- app_assoc|].
        intros k [<-|Hk].
        -- split; [now apply jsmap_not_has_keys|]. exists rec. auto.
        -- destruct (Hadded k Hk) as (Hnot & r' & Hin & Hr').
           split; [|exists r'; auto].
           intros Hin'. apply Hnot. apply in_or_app. now left.
    + rewrite import_one_skip in Hkeys, Hadded by assumption.
      rewrite import_one_skip by assumption.
      exists added. split; [exact Hkeys|].
      intros k Hk. destruct (Hadded k Hk) as (Hnot & r' & Hin & Hr').
      split; [assumption|]. exists r'. auto.
Qed.

Lemma import_loop_get_other records st k :
  (forall rec, In rec records -> importable rec = true -> i_id rec <> Some k) ->
  JsMap.get k (_alerts (import_loop records st)) = JsMap.get k (_alerts st).
Proof.
  unfold import_loop. revert st.
  induction records as [|r records IH]; simpl; intros st H; [reflexivity|].
  rewrite IH by (intros rec Hin; apply H; now right).
  apply import_one_get_other. apply H. now left.
Qed.

Lemma importAlerts_objects records st :
  objects (importAlerts (ArrayOf records) st) = objects (import_loop records st).
Proof.
  simpl. destruct (0 <? List.length records)%nat;
    [apply objects_fire_alertsChanged | reflexivity].
Qed.

Lemma importAlerts_alerts records st :
  _alerts (importAlerts (ArrayOf records) st) = _alerts (import_loop records st).
Proof.
  simpl. destruct (0 <? List.length records)%nat;
    [apply _alerts_fire_alertsChanged | reflexivity].
Qed.

(** *** Arrays of arbitrary elements *)





Lemma untyped_loop_returns elements st :
  (forall e, In e elements ->
             e <> ElemValue JsNull /\ e <> ElemValue JsUndefined) ->
  UntypedImport.import_loop elements st =
  UntypedImport.Returned (import_loop (UntypedImport.records_of elements) st) /\
  List.length (UntypedImport.records_of elements) = List.length elements.
Proof.
  revert st. induction elements as [|e elements IH]; intros st H.
  - split; reflexivity.
  - assert (He : exists rec, UntypedImport.fields_of e = Some rec).
    { destruct (H e (or_introl eq_refl)) as [H1 H2].
      destruct e as [[| |b|n|s]|rec]; simpl; eauto; congruence. }
    destruct He as [rec He].
    destruct (IH (import_one rec st)) as [IH1 IH2];
      [intros e' He'; apply H; now right|].
    unfold UntypedImport.records_of in *. simpl. rewrite He. simpl.
    split; [exact IH1 | now rewrite IH2].
Qed.

(** On an array of objects, the import of the declared type and the import
    of arbitrary elements are the same function. *)
Lemma untyped_import_of_objects records st :
  UntypedImport.importAlerts (map ElemObject records) st =
  UntypedImport.Returned (importAlerts (ArrayOf records) st).
Proof.
  assert (Hrec : UntypedImport.records_of (map ElemObject records) = records).
  { unfold UntypedImport.records_of.
    induction records as [|rec records IH]; simpl; [reflexivity|].
    now rewrite IH. }
  destruct (untyped_loop_returns (map ElemObject records) st) as [Hloop _].
  { intros e He. apply in_map_iff in He as (rec & <- & _).
    split; discriminate. }
  unfold UntypedImport.importAlerts, importAlerts.
  rewrite Hloop, Hrec. now rewrite length_map.
Qed.






(** X6.  [importAlerts] never moves or drops an alert that is already
    stored: the keys before the import are an initial segment of the keys
    after it, every key added is the id of an importable record, and an
    alert whose id no importable record carries stays the same object with
    the same contents. *)
Theorem import_keeps_stored_alerts_in_place records st :
  wf st ->
  let st' := importAlerts (ArrayOf records) st in
  (exists added,
     JsMap.keys (_alerts st') = JsMap.keys (_alerts st) ++ added /\
     forall k, In k added ->
       ~ In k (JsMap.keys (_alerts st)) /\
       exists rec, In rec records /\ importable rec = true /\ i_id rec = Some k) /\
  (forall k r,
     JsMap.get k (_alerts st) = Some r ->
     (forall rec, In rec records -> importable rec = true -> i_id rec <> Some k) ->
     JsMap.get k (_alerts st') = Some r /\ deref st' r = deref st r).
Proof.
  intros Hwf st'. unfold st'. split.
  - rewrite importAlerts_alerts. apply import_loop_keys.
  - intros k r Hget Hother. unfold deref.
    rewrite importAlerts_alerts, importAlerts_objects.
    split.
    + now rewrite import_loop_get_other.
    + destruct (wf_deref st k r Hwf Hget) as (a & Ha & _).
      destruct (import_loop_objects records st) as [l ->].
      unfold deref in Ha. rewrite Ha. now apply nth_error_grow.
Qed.

Lemma X6_witness :
  let st' := importAlerts (ArrayOf ex_bad_records) ex_store in
  (exists added,
     JsMap.keys (_alerts st') = JsMap.keys (_alerts ex_store) ++ added /\
     forall k, In k added ->
       ~ In k (JsMap.keys (_alerts ex_store)) /\
       exists rec, In rec ex_bad_records /\ importable rec = true /\
                   i_id rec = Some k) /\
  (forall k r,
     JsMap.get k (_alerts ex_store) = Some r ->
     (forall rec, In rec ex_bad_records -> importable rec = true ->
                  i_id rec <> Some k) ->
     JsMap.get k (_alerts st') = Some r /\ deref st' r = deref ex_store r).
Proof.
  apply (import_keeps_stored_alerts_in_place ex_bad_records ex_store).
  exact wf_ex_store.
Defined.

(** X7.  When several records of one import carry the same id, the last
    importable one wins: after the import the alert under that id is the one
    built from it, a price alert without tool reference and without initial
    position. *)
Theorem import_last_record_wins before rec after st :
  importable rec = true ->
  (forall rec', In rec' after -> importable rec' = true -> i_id rec' <> i_id rec) ->
  let st' := importAlerts (ArrayOf (before ++ rec :: after)) st in
  exists k r,
    i_id rec = Some k /\
    JsMap.get k (_alerts st') = Some r /\
    deref st' r = Some (alert_of_record rec) /\
    type (alert_of_record rec) = Some TypePrice /\
    toolRef (alert_of_record rec) = None /\
    initialPricePosition (alert_of_record rec) = None.
Proof.
  intros Himp Hlast st'.
  set (st1 := import_loop before st).
  destruct (import_one_built rec st1 Himp) as [Hid Hone].
  exists (id (alert_of_record rec)), (List.length (objects st1)).
  split; [exact Hid|].
  assert (Hloop : import_loop (before ++ rec :: after) st =
                  import_loop after (import_one rec st1)).
  { unfold import_loop, st1. now rewrite fold_left_app. }
  unfold st', deref. rewrite importAlerts_alerts, importAlerts_objects, Hloop.
  split; [|split; [|repeat split]].
  - rewrite import_loop_get_other.
    + rewrite Hone. simpl. apply jsmap_get_set_eq.
    + intros rec' Hin Himp' E. apply (Hlast rec' Hin Himp'). congruence.
  - destruct (import_loop_objects after (import_one rec st1)) as [l ->].
    apply nth_error_grow. rewrite Hone. simpl. apply nth_error_snoc.
Qed.

Lemma X7_witness :
  let st' := importAlerts
               (ArrayOf ([ex_record "r" 10%Z] ++ ex_record "r" 20%Z
                           :: [ex_record "s" 30%Z])) ex_store in
  exists k r,
    i_id (ex_record "r" 20%Z) = Some k /\
    JsMap.get k (_alerts st') = Some r /\
    deref st' r = Some (alert_of_record (ex_record "r" 20%Z)) /\
    type (alert_of_record (ex_record "r" 20%Z)) = Some TypePrice /\
    toolRef (alert_of_record (ex_record "r" 20%Z)) = None /\
    initialPricePosition (alert_of_record (ex_record "r" 20%Z)) = None.
Proof.
  apply (import_last_record_wins [ex_record "r" 10%Z] (ex_record "r" 20%Z)
           [ex_record "s" 30%Z] ex_store).
  - reflexivity.
  - intros rec' [<-|[]] _. discriminate.
Defined.




(** ** The array once the store's listener is gone *)

Lemma frozen_fire_alertsChanged s st :
  listening s = false -> _alertsArray s = _alertsArray st ->
  _alertsArray (fire_alertsChanged s) = _alertsArray st /\
  listening (fire_alertsChanged s) = false.
Proof. intros H E. unfold fire_alertsChanged. simpl. rewrite H. auto. Qed.

Lemma frozen_run_op op st st' :
  listening st = false -> run_op op st = Some st' ->
  _alertsArray st' = _alertsArray st /\ listening st' = false.
Proof.
  intros Hl. destruct op; simpl.
  - unfold addAlert.
    destruct (addAlertWithCondition _ _ _ _) as [[k s]|] eqn:E; [|discriminate].
    intros [= <-]. apply addAlertWithCondition_unfold in E as [_ ->].
    now apply frozen_fire_alertsChanged.
  - destruct (addAlertWithCondition _ _ _ _) as [[k s]|] eqn:E; [|discriminate].
    intros [= <-]. apply addAlertWithCondition_unfold in E as [_ ->].
    now apply frozen_fire_alertsChanged.
  - intros [= <-]. unfold removeAlert.
    destruct (JsMap.has k (_alerts st)); simpl; [|auto].
    now apply frozen_fire_alertsChanged.
  - intros [= <-]. unfold updateAlertPrice.
    destruct (JsMap.get k (_alerts st)); [|auto].
    now apply frozen_fire_alertsChanged.
  - intros [= <-]. unfold updateAlert.
    destruct (JsMap.get k (_alerts st)); [|auto].
    destruct n; now apply frozen_fire_alertsChanged.
  - intros [= <-]. destruct arg as [|records]; simpl; [auto|].
    destruct (import_loop_frame records st) as (Hl' & _ & Harr).
    destruct (0 <? List.length records)%nat.
    + apply frozen_fire_alertsChanged; congruence.
    + split; congruence.
  - intros [= <-]. unfold clearAlerts.
    destruct (JsMap.size (_alerts st) =? 0)%nat; [auto|].
    now apply frozen_fire_alertsChanged.
Qed.

(** X9.  Once the store's own listener is unsubscribed (which is all that
    [destroy()] does), no operation refreshes the array any more: after any
    sequence of operations [alerts()] still returns the array it returned
    before them, whatever the map has become. *)
Theorem alerts_frozen_once_unsubscribed ops st st' :
  listening st = false -> run_ops ops st = Some st' ->
  alerts st' = alerts st /\ listening st' = false.
Proof.
  unfold alerts. revert st.
  induction ops as [|op ops IH]; simpl; intros st Hl.
  - intros [= <-]. auto.
  - destruct (run_op op st) as [st1|] eqn:E; [|discriminate].
    destruct (frozen_run_op op st st1 Hl E) as [Harr Hl1].
    intros Hrun. destruct (IH st1 Hl1 Hrun) as [-> ->]. auto.
Qed.

Lemma X9_witness :
  JsMap.keys (_alerts ex_destroyed_later) = ["4d"; "4e"]%string /\
  alerts ex_destroyed_later = alerts ex_destroyed_store /\
  listening ex_destroyed_later = false.
Proof.
  split; [reflexivity|].
  apply (alerts_frozen_once_unsubscribed ex_ops_after_destroy
           ex_destroyed_store ex_destroyed_later).
  - reflexivity.
  - vm_compute. reflexivity.
Defined.

(** ** Alerts at the same price *)

Lemma filter_view objs (keep : UserAlertInfo -> bool) (l : list ref) :
  Forall (fun r => exists a, nth_error objs r = Some a) l ->
  filter keep
    (flat_map (fun r => match nth_error objs r with
                        | Some a => [a] | None => [] end) l) =
  flat_map (fun r => match nth_error objs r with
                     | Some a => [a] | None => [] end)
    (filter (fun r => match nth_error objs r with
                      | Some a => keep a | None => false end) l).
Proof.
  induction 1 as [|r l [a Ha] _ IH]; simpl; [reflexivity|].
  rewrite Ha. simpl. destruct (keep a); simpl; rewrite ?Ha, IH; reflexivity.
Qed.

(** X10.  When no stored alert has a NaN price, [alerts()] keeps alerts of
    equal price in the order of the map, that is in the order in which their
    ids were first filed: for every price, the alerts at that price come in
    the same order in [alerts()] and in the store.  (With a NaN price the
    comparator is not consistent and the order is the engine's.) *)
Theorem alerts_with_equal_price_keep_map_order ops st p :
  run_ops ops constructor = Some st ->
  Forall (fun a => price a <> NaN) (stored st) ->
  filter (fun a => number_eqb (price a) p) (alerts_view st) =
  filter (fun a => number_eqb (price a) p) (stored st).
Proof.
  intros Hrun Hnum.
  pose proof (live_run_ops _ _ _ live_constructor Hrun) as [_ Harr].
  pose proof (wf_run_ops _ _ _ wf_constructor Hrun) as Hwf.
  pose proof (values_valid st Hwf) as Hvalid.
  pose proof (values_not_NaN st Hwf Hnum) as Hnums.
  unfold alerts_view, stored, deref, alerts. rewrite Harr.
  assert (Hsorted : Forall (fun r => exists a, nth_error (objects st) r = Some a)
                      (sort (by_price_desc (objects st))
                            (JsMap.values (_alerts st)))).
  { eapply Permutation_Forall; [symmetry; apply sort_perm | exact Hvalid]. }
  assert (Hf : forall l : list ref,
            Forall (fun r => exists a, nth_error (objects st) r = Some a) l ->
            filter (fun r => match nth_error (objects st) r with
                             | Some a => number_eqb (price a) p
                             | None => false end) l =
            filter (fun r => number_eqb (price_at (objects st) r) p) l).
  { intros l Hl. apply filter_ext_in. intros r Hr.
    rewrite Forall_forall in Hl. destruct (Hl r Hr) as [a Ha].
    unfold price_at. now rewrite Ha. }
  rewrite !filter_view by assumption.
  rewrite !Hf by assumption. f_equal. now apply sort_stable.
Qed.

Lemma X10_witness :
  map id (alerts_view ex_store_same_price) = ["a"; "b"; "c"]%string /\
  Forall (fun a => price a <> NaN) (stored ex_store_same_price) /\
  filter (fun a => number_eqb (price a) 100) (alerts_view ex_store_same_price) =
  filter (fun a => number_eqb (price a) 100) (stored ex_store_same_price).
Proof.
  assert (Hnum : Forall (fun a => price a <> NaN) (stored ex_store_same_price))
    by (repeat constructor; discriminate).
  split; [reflexivity|]. split; [exact Hnum|].
  apply (alerts_with_equal_price_keep_map_order ex_ops_same_price
           ex_store_same_price 100).
  - vm_compute. reflexivity.
  - exact Hnum.
Defined.

(** ** Different numbers give different ids *)

Lemma hex_value_digit d : (d < 16)%N -> hex_value (hex_digit d) = d.
Proof.
  intros H.
  assert (Hin : In (N.to_nat d) (seq 0 16)) by (apply in_seq; lia).
  rewrite <- (N2Nat.id d). revert Hin. generalize (N.to_nat d). intros n.
  simpl. intuition (subst; reflexivity).
Qed.

Lemma of_hex_to_hex_aux fuel n acc :
  (n < 16 ^ N.of_nat (S fuel))%N ->
  of_hex_from 0 (to_hex_aux fuel n acc) = of_hex_from n acc.
Proof.
  revert n acc. induction fuel as [|fuel IH]; intros n acc Hn.
  - simpl in *. rewrite hex_value_digit by (apply N.mod_lt; lia).
    rewrite N.mod_small by lia. reflexivity.
  - cbn [to_hex_aux].
    assert (Hlast : of_hex_from (n / 16)
                      (String (hex_digit (n mod 16)) acc) = of_hex_from n acc).
    { cbn [of_hex_from]. rewrite hex_value_digit by (apply N.mod_lt; lia).
      rewrite <- N.div_mod by lia. reflexivity. }
    destruct (N.eqb_spec (n / 16) 0) as [Hz|Hnz].
    + rewrite <- Hlast, Hz. reflexivity.
    + rewrite IH; [exact Hlast|].
      apply N.Div0.div_lt_upper_bound.
      rewrite <- N.pow_succ_r'. now rewrite <- Nat2N.inj_succ.
Qed.

(** X11.  The hexadecimal form that [_getNewId] takes of a candidate
    determines the candidate: reading it back gives the number, so two
    different numbers never yield the same id. *)
Theorem toString16_determines_the_number n m :
  of_hex (toString16 n) = n /\
  (toString16 n = toString16 m -> n = m).
Proof.
  assert (H : forall k, of_hex (toString16 k) = k).
  { intros k. unfold of_hex, toString16. rewrite of_hex_to_hex_aux.
    - reflexivity.
    - rewrite Nat2N.inj_succ, N2Nat.id.
      destruct (N.eq_dec k 0) as [->|Hk]; [reflexivity|].
      apply N.lt_le_trans with (2 ^ N.succ (N.log2 k))%N.
      + apply N.log2_spec. lia.
      + apply N.pow_le_mono_l. lia. }
  split; [apply H|].
  intros E. rewrite <- (H n), <- (H m). now rewrite E.
Qed.

Lemma X11_witness :
  of_hex (toString16 1000000) = 1000000%N /\
  (toString16 1000000 = toString16 1000000 -> 1000000%N = 1000000%N).
Proof. exact (toString16_determines_the_number 1000000 1000000). Defined.

(* ===================================================================== *)
(** * Further properties of the dispatcher *)
(* ===================================================================== *)

(** ** Handles and elements stay fresh *)

Lemma ok_new manager : dispatcher_ok (new manager).
Proof.
  split; simpl; try constructor; try (intros ? ? []); lia.
Qed.

Lemma ok_setTimeout cb delay d :
  dispatcher_ok d -> dispatcher_ok (snd (setTimeout cb delay d)).
Proof.
  intros [H1 H2 H3 H4 H5 H6 H7]. split; simpl; auto; try lia.
  - apply Forall_app. split.
    + eapply Forall_impl; [|exact H2]. simpl. intros; lia.
    + constructor; [simpl; lia | constructor].
  - intros k h Hin. specialize (H3 k h Hin). lia.
  - intros toast h Hin. specialize (H4 toast h Hin). lia.
Qed.

Lemma ok_clearTimeout h d :
  dispatcher_ok d -> dispatcher_ok (clearTimeout h d).
Proof.
  intros [H1 H2 H3 H4 H5 H6 H7]. split; simpl; auto.
  apply Forall_forall. intros tm Htm. apply filter_In in Htm as [Htm _].
  rewrite Forall_forall in H2. auto.
Qed.

Lemma ok_with_dismissing c d :
  dispatcher_ok d -> dispatcher_ok (with_dismissing c d).
Proof. intros [H1 H2 H3 H4 H5 H6 H7]. split; simpl; auto. Qed.

Lemma ok_delete_timeout k d :
  dispatcher_ok d ->
  dispatcher_ok (with_dismissTimeouts (JsMap.delete k (_dismissTimeouts d)) d).
Proof.
  intros [H1 H2 H3 H4 H5 H6 H7]. split; simpl; auto.
  - intros k' h Hin. apply jsmap_In_delete in Hin. eauto.
  - now apply jsmap_NoDup_delete.
Qed.

Lemma ok_dismiss k d : dispatcher_ok d -> dispatcher_ok (dismiss k d).
Proof.
  intros Hok. unfold dismiss.
  set (d1 := match JsMap.get k (_dismissTimeouts d) with
             | Some timeoutId => _
             | None => d
             end).
  assert (Hok1 : dispatcher_ok d1).
  { unfold d1. destruct (JsMap.get k (_dismissTimeouts d)) as [h|]; [|assumption].
    destruct (h =? 0)%nat; [assumption|].
    apply (ok_delete_timeout k (clearTimeout h d)). now apply ok_clearTimeout. }
  destruct (JsMap.get k (_notifications d1)) as [n|]; [|assumption].
  apply ok_setTimeout. now apply ok_with_dismissing.
Qed.

Lemma ok_show data d : dispatcher_ok d -> dispatcher_ok (show data d).
Proof.
  intros Hok. unfold show.
  destruct (_container d) as [c|]; [|assumption].
  set (wantToast := match notificationSettings data with
                    | Some s => showToast s | None => true end).
  set (wantSound := match notificationSettings data with
                    | Some s => playSound s | None => true end).
  set (sendWebhook := match notificationSettings data with
                      | Some s => webhookEnabled s | None => false end).
  assert (Hchannels : forall d1, dispatcher_ok d1 ->
            dispatcher_ok (if sendWebhook
                           then _sendWebhook (if wantSound then _playAlarm d1 else d1)
                           else if wantSound then _playAlarm d1 else d1)).
  { intros d1 [H1 H2 H3 H4 H5 H6 H7].
    destruct sendWebhook, wantSound; split; simpl; auto. }
  apply Hchannels. destruct wantToast; [|assumption].
  set (d0 := if JsMap.has (alertId data) (_notifications d)
             then dismiss (alertId data) d else d).
  assert (Hok0 : dispatcher_ok d0).
  { unfold d0. destruct (JsMap.has _ _); [now apply ok_dismiss | assumption]. }
  destruct Hok0 as [H1 H2 H3 H4 H5 H6 H7]. split; simpl; auto; try lia.
  - apply Forall_app. split.
    + eapply Forall_impl; [|exact H2]. simpl. intros; lia.
    + constructor; [simpl; lia | constructor].
  - intros k h Hin. apply jsmap_In_set in Hin as [[-> ->]|Hin]; [lia|].
    specialize (H3 k h Hin). lia.
  - intros toast h Hin. specialize (H4 toast h Hin). lia.
  - apply Forall_app. split.
    + eapply Forall_impl; [|exact H5]. simpl. intros; lia.
    + constructor; [lia | constructor].
  - now apply jsmap_NoDup_set.
  - now apply jsmap_NoDup_set.
Qed.

Lemma ok_webhook_settles success d :
  dispatcher_ok d -> dispatcher_ok (webhook_settles success d).
Proof.
  intros Hok. unfold webhook_settles.
  destruct (webhooks d); [assumption|].
  destruct Hok as [H1 H2 H3 H4 H5 H6 H7]. split; simpl; auto; try lia.
  - apply Forall_app. split.
    + eapply Forall_impl; [|exact H2]. simpl. intros; lia.
    + constructor; [simpl; lia | constructor].
  - intros k h Hin. specialize (H3 k h Hin). lia.
  - intros toast h Hin. apply in_app_or in Hin as [Hin|[[= <- <-]|[]]]; [|lia].
    specialize (H4 toast h Hin). lia.
  - eapply Forall_impl; [|exact H5]. simpl. intros; lia.
Qed.

Lemma ok_close_result_toast toast d :
  dispatcher_ok d -> dispatcher_ok (close_result_toast toast d).
Proof.
  intros Hok. unfold close_result_toast.
  destruct (find (fun e => (fst e =? toast)%nat) (body_toasts d)) as [[n h]|];
    [|assumption].
  apply ok_setTimeout. now apply ok_clearTimeout.
Qed.

Lemma ok_clear_all (l : JsMap.t nat) d :
  dispatcher_ok d ->
  dispatcher_ok (fold_left (fun acc e => clearTimeout (snd e) acc) l d).
Proof.
  revert d. induction l as [|e l IH]; simpl; intros d Hok; [assumption|].
  apply IH. now apply ok_clearTimeout.
Qed.

Lemma ok_dismiss_all (l : JsMap.t node) d :
  dispatcher_ok d ->
  dispatcher_ok (fold_left (fun acc e => dismiss (fst e) acc) l d).
Proof.
  revert d. induction l as [|e l IH]; simpl; intros d Hok; [assumption|].
  apply IH. now apply ok_dismiss.
Qed.

Lemma ok_destroy d : dispatcher_ok d -> dispatcher_ok (destroy d).
Proof.
  intros Hok. unfold destroy.
  set (d1 := fold_left (fun acc e => clearTimeout (snd e) acc)
                       (_dismissTimeouts d) d).
  assert (Hok1 : dispatcher_ok d1) by now apply ok_clear_all.
  set (d2 := with_dismissTimeouts JsMap.empty d1).
  assert (Hok2 : dispatcher_ok d2).
  { destruct Hok1 as [H1 H2 H3 H4 H5 H6 H7]. split; simpl; auto.
    - intros k h [].
    - constructor. }
  set (d3 := fold_left (fun acc e => dismiss (fst e) acc) (_notifications d2) d2).
  assert (Hok3 : dispatcher_ok d3) by now apply ok_dismiss_all.
  destruct Hok3 as [H1 H2 H3 H4 H5 H6 H7]. split; simpl; auto.
Qed.

Lemma earliest_In ts tm : earliest ts = Some tm -> In tm ts.
Proof.
  revert tm. induction ts as [|x ts IH]; simpl; intros tm; [discriminate|].
  destruct (earliest ts) as [tm'|].
  - destruct (due tm' <? due x)%Z; intros [= <-]; auto.
  - intros [= <-]. auto.
Qed.

Lemma ok_run_callback cb d :
  dispatcher_ok d -> dispatcher_ok (run_callback cb d).
Proof.
  intros Hok. destruct cb as [k|n k|toast|toast]; simpl.
  - apply ok_dismiss. now apply ok_delete_timeout.
  - destruct Hok as [H1 H2 H3 H4 H5 H6 H7]. split; simpl; auto.
    + apply Forall_forall. intros x Hx. apply filter_In in Hx as [Hx _].
      rewrite Forall_forall in H5. auto.
    + now apply jsmap_NoDup_delete.
  - now apply (ok_setTimeout (RemoveResultToast toast) 300 d).
  - destruct Hok as [H1 H2 H3 H4 H5 H6 H7]. split; simpl; auto.
    intros t' h Hin. apply filter_In in Hin as [Hin _]. auto.
Qed.

Lemma ok_step a d : dispatcher_ok d -> dispatcher_ok (dispatcher_step a d).
Proof.
  intros Hok. destruct a; simpl.
  - now apply ok_show.
  - now apply ok_dismiss.
  - unfold fire_next. destruct (earliest (timers d)) as [tm|]; [|assumption].
    apply ok_run_callback.
    apply (ok_clearTimeout (handle tm)) in Hok.
    destruct Hok as [H1 H2 H3 H4 H5 H6 H7]. split; simpl; auto.
  - now apply ok_webhook_settles.
  - now apply ok_close_result_toast.
  - now apply ok_destroy.
Qed.

Lemma ok_run acts d : dispatcher_ok d -> dispatcher_ok (dispatcher_run acts d).
Proof.
  unfold dispatcher_run. revert d.
  induction acts as [|a acts IH]; simpl; intros d Hok; [assumption|].
  apply IH. now apply ok_step.
Qed.

(** ** What [dismiss] and [show] touch *)

Lemma dismiss_frame k d :
  _container (dismiss k d) = _container d /\
  _notifications (dismiss k d) = _notifications d /\
  container_children (dismiss k d) = container_children d /\
  body_toasts (dismiss k d) = body_toasts d /\
  next_node (dismiss k d) = next_node d /\
  alarms (dismiss k d) = alarms d /\
  webhooks (dismiss k d) = webhooks d /\
  clock (dismiss k d) = clock d.
Proof.
  unfold dismiss.
  destruct (JsMap.get k (_dismissTimeouts d)) as [h|];
    [destruct (h =? 0)%nat|]; simpl;
    destruct (JsMap.get k (_notifications d)); simpl; repeat split.
Qed.

Lemma dismiss_tracked k h d :
  JsMap.get k (_dismissTimeouts d) = Some h -> h <> 0%nat ->
  let d1 := with_dismissTimeouts (JsMap.delete k (_dismissTimeouts d))
              (clearTimeout h d) in
  dismiss k d =
  match JsMap.get k (_notifications d) with
  | Some n =>
      snd (setTimeout (RemoveNotification n k) 300
             (with_dismissing (n :: dismissing d1) d1))
  | None => d1
  end.
Proof.
  intros Hget Hh d1. unfold dismiss. rewrite Hget.
  apply Nat.eqb_neq in Hh. rewrite Hh. reflexivity.
Qed.

(** X12.  In every state the dispatcher can reach, [dismiss] of an alert
    whose auto-dismiss timer is tracked cancels that timer and forgets it:
    no pending timer has its handle any more, the timer map has no entry
    for the alert, and every other pending timer is still pending. *)
Theorem dismiss_cancels_the_tracked_timer acts manager k h :
  let d := dispatcher_run acts (new manager) in
  JsMap.get k (_dismissTimeouts d) = Some h ->
  let d' := dismiss k d in
  ~ In h (map handle (timers d')) /\
  JsMap.get k (_dismissTimeouts d') = None /\
  (forall tm, In tm (timers d) -> handle tm <> h -> In tm (timers d')).
Proof.
  intros d Hget d'.
  assert (Hok : dispatcher_ok d) by (apply ok_run, ok_new).
  assert (Hh : (0 < h < next_handle d)%nat).
  { apply (ok_tracked d Hok k). now apply jsmap_get_In. }
  assert (Hfilter : ~ In h (map handle
              (filter (fun tm => negb (handle tm =? h)%nat) (timers d)))).
  { intros Hin. apply in_map_iff in Hin as (tm & E & Htm).
    apply filter_In in Htm as [_ Hneq]. rewrite E, Nat.eqb_refl in Hneq.
    discriminate. }
  assert (Hkeep : forall tm, In tm (timers d) -> handle tm <> h ->
            In tm (filter (fun tm => negb (handle tm =? h)%nat) (timers d))).
  { intros tm Htm Hne. apply filter_In. split; [assumption|].
    apply Nat.eqb_neq in Hne. now rewrite Hne. }
  assert (Hgone : JsMap.get k (JsMap.delete k (_dismissTimeouts d)) = None).
  { apply jsmap_get_delete_eq. apply Hok. }
  unfold d'. rewrite (dismiss_tracked k h d Hget) by lia.
  destruct (JsMap.get k (_notifications d)) as [n|]; simpl.
  - split; [|split; [exact Hgone|]].
    + rewrite map_app, in_app_iff. simpl. intros [Hin|[E|[]]];
        [now apply Hfilter | lia].
    + intros tm Htm Hne. apply in_or_app. left. now apply Hkeep.
  - split; [exact Hfilter|]. split; [exact Hgone | exact Hkeep].
Qed.

Lemma X12_witness :
  let d := dispatcher_run ex_acts (new 7) in
  let d' := dismiss "b" d in
  ~ In 3%nat (map handle (timers d')) /\
  JsMap.get "b" (_dismissTimeouts d') = None /\
  (forall tm, In tm (timers d) -> handle tm <> 3%nat -> In tm (timers d')).
Proof.
  apply (dismiss_cancels_the_tracked_timer ex_acts 7 "b" 3).
  vm_compute. reflexivity.
Defined.

(** X13.  A destroyed dispatcher ignores [show]: whatever alerts are shown
    after [destroy], no toast is created, no timer is started, no sound is
    played and no webhook is sent. *)
Theorem show_after_destroy_does_nothing datas d :
  dispatcher_run (map DoShow datas) (destroy d) = destroy d.
Proof.
  unfold dispatcher_run.
  induction datas as [|data datas IH]; simpl; [reflexivity|].
  exact IH.
Qed.

(** X14.  On a live dispatcher [show] decides each channel on its own flag:
    the alarm is played unless [playSound] is false, the webhook is sent
    only if [webhookEnabled] is true, both whether or not a toast is shown;
    with no settings at all the toast and the sound are on and the webhook
    is off.  When [showToast] is false the notifications, the container and
    the timers are left as they are. *)
Theorem show_decides_each_channel_separately data d c :
  _container d = Some c ->
  let s := notificationSettings data in
  let sound := match s with Some s' => playSound s' | None => true end in
  let hook := match s with Some s' => webhookEnabled s' | None => false end in
  let toast := match s with Some s' => showToast s' | None => true end in
  alarms (show data d) = (alarms d + if sound then 1 else 0)%nat /\
  webhooks (show data d) = (webhooks d + if hook then 1 else 0)%nat /\
  (toast = true ->
   JsMap.get (alertId data) (_notifications (show data d)) = Some (next_node d)) /\
  (toast = false ->
   _notifications (show data d) = _notifications d /\
   _dismissTimeouts (show data d) = _dismissTimeouts d /\
   container_children (show data d) = container_children d /\
   timers (show data d) = timers d).
Proof.
  intros Hc s sound hook toast. unfold show. rewrite Hc.
  fold s. fold sound. fold hook. fold toast.
  destruct (dismiss_frame (alertId data) d)
    as (_ & _ & _ & _ & Hnode & Halarms & Hhooks & _).
  assert (Hd0 : forall d0,
            d0 = (if JsMap.has (alertId data) (_notifications d)
                  then dismiss (alertId data) d else d) ->
            alarms d0 = alarms d /\ webhooks d0 = webhooks d /\
            next_node d0 = next_node d).
  { intros d0 ->. destruct (JsMap.has _ _); auto. }
  destruct (Hd0 _ eq_refl) as (Ha & Hw & Hn).
  destruct toast, sound, hook; simpl;
    rewrite ?Ha, ?Hw, ?Hn, ?Nat.add_0_r, ?Nat.add_1_r;
    repeat split; try discriminate; try reflexivity;
    intros _; apply jsmap_get_set_eq.
Qed.

Lemma X14_witness :
  let d := new 7 in
  let data := ex_data_webhook in
  alarms (show data d) = (alarms d + 1)%nat /\
  webhooks (show data d) = (webhooks d + 1)%nat /\
  (true = true ->
   JsMap.get (alertId data) (_notifications (show data d)) = Some (next_node d)) /\
  (true = false ->
   _notifications (show data d) = _notifications d /\
   _dismissTimeouts (show data d) = _dismissTimeouts d /\
   container_children (show data d) = container_children d /\
   timers (show data d) = timers d).
Proof.
  exact (show_decides_each_channel_separately ex_data_webhook (new 7) 0%nat
           eq_refl).
Defined.

(** ** A toast from [show] to its removal *)







(** ** A webhook result toast from its appearance to its removal *)




(** ** What [destroy] does cancel *)

Lemma timers_clear_all (l : JsMap.t nat) d tm :
  In tm (timers (fold_left (fun acc e => clearTimeout (snd e) acc) l d)) ->
  In tm (timers d) /\ forall e, In e l -> handle tm <> snd e.
Proof.
  revert d. induction l as [|e l IH]; simpl; intros d Hin.
  - split; [assumption | intros e []].
  - destruct (IH _ Hin) as [Hin' Hl]. simpl in Hin'.
    apply filter_In in Hin' as [Hin' Hne].
    split; [assumption|]. intros e' [<-|He']; [|auto].
    intros E. rewrite E, Nat.eqb_refl in Hne. discriminate.
Qed.

Lemma timers_dismiss k d tm :
  In tm (timers (dismiss k d)) ->
  In tm (timers d) \/ (next_handle d <= handle tm)%nat.
Proof.
  unfold dismiss.
  set (d1 := match JsMap.get k (_dismissTimeouts d) with
             | Some timeoutId => _
             | None => d
             end).
  assert (H1 : (forall x, In x (timers d1) -> In x (timers d)) /\
               next_handle d1 = next_handle d).
  { unfold d1. destruct (JsMap.get k (_dismissTimeouts d)) as [h|];
      [destruct (h =? 0)%nat|]; simpl; split; auto.
    intros x Hx. now apply filter_In in Hx. }
  destruct H1 as [Hsub Hnext].
  destruct (JsMap.get k (_notifications d1)) as [n|]; simpl.
  - rewrite in_app_iff. simpl. intros [Hin|[<-|[]]]; [left; auto|].
    right. simpl. lia.
  - intros Hin. left. auto.
Qed.

Lemma next_handle_dismiss k d : (next_handle d <= next_handle (dismiss k d))%nat.
Proof.
  unfold dismiss.
  destruct (JsMap.get k (_dismissTimeouts d)) as [h|];
    [destruct (h =? 0)%nat|]; simpl;
    match goal with
    | |- context [JsMap.get ?k' ?m] => destruct (JsMap.get k' m)
    end; simpl; lia.
Qed.

Lemma timers_dismiss_all (l : JsMap.t node) d tm :
  In tm (timers (fold_left (fun acc e => dismiss (fst e) acc) l d)) ->
  In tm (timers d) \/ (next_handle d <= handle tm)%nat.
Proof.
  revert d. induction l as [|e l IH]; simpl; intros d Hin; [now left|].
  destruct (IH _ Hin) as [Hin'|Hge].
  - now apply timers_dismiss in Hin'.
  - right. pose proof (next_handle_dismiss (fst e) d). lia.
Qed.

(** X20.  What [destroy] does cancel: in any state the dispatcher can reach,
    no timer tracked in the timer map (the auto-dismiss timers) is pending
    after [destroy], and the timer map is empty. *)
Theorem destroy_cancels_every_tracked_timer acts manager k h :
  let d := dispatcher_run acts (new manager) in
  In (k, h) (_dismissTimeouts d) ->
  ~ In h (map handle (timers (destroy d))) /\
  _dismissTimeouts (destroy d) = [].
Proof.
  intros d Hin.
  assert (Hok : dispatcher_ok d) by (apply ok_run, ok_new).
  pose proof (ok_tracked d Hok k h Hin) as Hh.
  set (d1 := fold_left (fun acc e => clearTimeout (snd e) acc)
                       (_dismissTimeouts d) d).
  set (d2 := with_dismissTimeouts JsMap.empty d1).
  set (d3 := fold_left (fun acc e => dismiss (fst e) acc) (_notifications d2) d2).
  assert (Hnext : next_handle d1 = next_handle d).
  { unfold d1. generalize (_dismissTimeouts d). intros l. generalize d.
    induction l as [|e l IH]; simpl; intros d'; [reflexivity|].
    now rewrite IH. }
  assert (Hto : _dismissTimeouts d3 = []).
  { unfold d3. assert (H2 : _dismissTimeouts d2 = []) by reflexivity.
    revert H2. generalize (_notifications d2). intros l. generalize d2.
    induction l as [|e l IH]; simpl; intros d' H2; [assumption|].
    apply IH. unfold dismiss. rewrite H2. simpl.
    destruct (JsMap.get (fst e) (_notifications d')); simpl; assumption. }
  split; [|exact Hto].
  change (~ In h (map handle (timers d3))).
  intros Hh3. apply in_map_iff in Hh3 as (tm & E & Htm).
  apply timers_dismiss_all in Htm as [Htm|Hge].
  - change (timers d2) with (timers d1) in Htm.
    apply timers_clear_all in Htm as [_ Hne].
    apply (Hne (k, h) Hin). exact E.
  - change (next_handle d2) with (next_handle d1) in Hge. lia.
Qed.

Lemma X20_witness :
  let d := dispatcher_run ex_acts (new 7) in
  ~ In 3%nat (map handle (timers (destroy d))) /\
  _dismissTimeouts (destroy d) = [].
Proof.
  apply (destroy_cancels_every_tracked_timer ex_acts 7 "b" 3).
  vm_compute. now left.
Defined.

(* ===================================================================== *)
(** * The webhook payload, the toast's wording and the edit dialog *)
(* ===================================================================== *)

(** X17.  What [_sendWebhook] sends, whatever the formatted price parses
    to: the close is the alert's close price when there is one (and it is
    not 0), otherwise the same number as the price; the price is 0 only if
    neither the numeric price nor the parsed formatted price gives a
    non-zero number; the exchange is the alert's, or ['NSE'] when that is
    missing or empty; the mode is ['openalgo'] unless the settings say
    ['custom'], and the order settings are present exactly in ['openalgo']
    mode; they hold the action, product and price type of the settings, or
    ['BUY'], ['MIS'] and ['MARKET'] where the settings have none, and the
    quantity of the settings, or 1 when that is missing or 0. *)
Theorem webhook_payload_defaults parseFloat data settings :
  let p := Webhook.alert_payload parseFloat data in
  let c := Webhook.webhook_config settings in
  Webhook.p_close p = Webhook.num_or (closePrice data) (Webhook.p_price p) /\
  (Webhook.p_price p = 0%Z <->
   Webhook.num_or (numericPrice data) 0 = 0%Z /\
   Webhook.num_or (parseFloat (d_price data)) 0 = 0%Z) /\
  Webhook.p_exchange p <> ""%string /\
  (Webhook.c_mode c = custom <-> webhookMode settings = Some custom) /\
  (Webhook.c_openalgoSettings c = None <-> Webhook.c_mode c = custom) /\
  (forall o, Webhook.c_openalgoSettings c = Some o ->
     Webhook.o_quantity o <> 0%Z /\
     (forall q, openalgoQuantity settings = Some q -> q <> 0%Z ->
                Webhook.o_quantity o = q)) /\
  (d_exchange data = None \/ d_exchange data = Some ""%string ->
   Webhook.p_exchange p = "NSE"%string) /\
  (forall s, d_exchange data = Some s -> s <> ""%string ->
             Webhook.p_exchange p = s) /\
  (webhookMode settings <> Some custom -> Webhook.c_mode c = openalgo) /\
  (forall o, Webhook.c_openalgoSettings c = Some o ->
     (openalgoQuantity settings = None \/ openalgoQuantity settings = Some 0%Z ->
      Webhook.o_quantity o = 1%Z) /\
     Webhook.o_action o =
       match openalgoAction settings with Some x => x | None => BUY end /\
     Webhook.o_product o =
       match openalgoProduct settings with Some x => x | None => MIS end /\
     Webhook.o_pricetype o =
       match openalgoPricetype settings with Some x => x | None => MARKET end) /\
  (webhookMode settings = None -> openalgoAction settings = None ->
   openalgoProduct settings = None -> openalgoQuantity settings = None ->
   openalgoPricetype settings = None ->
   Webhook.c_mode c = openalgo /\
   Webhook.c_openalgoSettings c =
     Some {| Webhook.o_action := BUY; Webhook.o_product := MIS;
             Webhook.o_quantity := 1; Webhook.o_pricetype := MARKET |}).
Proof.
  intros p c. unfold p, c, Webhook.alert_payload, Webhook.webhook_config.
  simpl. split; [reflexivity|].
  split; [|split; [|split; [|split; [|split; [|split; [|split;
    [|split; [|split]]]]]]]].
  - unfold Webhook.num_or.
    destruct (numericPrice data) as [n|]; [destruct (Z.eqb_spec n 0)|];
      destruct (parseFloat (d_price data)) as [m|];
      try destruct (Z.eqb_spec m 0); intuition congruence.
  - unfold Webhook.str_or. destruct (d_exchange data) as [s|]; [|discriminate].
    destruct (String.eqb_spec s ""); [discriminate | assumption].
  - destruct (webhookMode settings) as [[|]|]; simpl;
      split; congruence.
  - destruct (webhookMode settings) as [[|]|]; simpl;
      split; congruence.
  - intros o. destruct (webhookMode settings) as [[|]|]; simpl;
      try discriminate; intros [= <-]; simpl; unfold Webhook.num_or;
      (split;
       [ destruct (openalgoQuantity settings) as [q|];
           [destruct (Z.eqb_spec q 0)|]; lia
       | intros q -> Hq; apply Z.eqb_neq in Hq; now rewrite Hq ]).
  - unfold Webhook.str_or. intros [-> | ->]; reflexivity.
  - unfold Webhook.str_or. intros s -> Hs.
    destruct (String.eqb_spec s ""); [contradiction | reflexivity].
  - destruct (webhookMode settings) as [[|]|]; simpl; congruence.
  - intros o. destruct (webhookMode settings) as [[|]|]; simpl;
      try discriminate; intros [= <-]; simpl; unfold Webhook.opt_or;
      (split; [intros [-> | ->]; reflexivity | repeat split]).
  - intros -> -> -> -> ->. split; reflexivity.
Qed.

(** X18.  The toast names each condition with the label under which the edit
    dialog offers it, and the dialog has no other label for it. *)
Theorem toast_wording_matches_dialog_labels c :
  In (c, toast_action c) AlertEditDialog.allOptions /\
  (forall label, In (c, label) AlertEditDialog.allOptions ->
                 label = toast_action c).
Proof.
  split.
  - destruct c; simpl; tauto.
  - intros label Hin. simpl in Hin.
    destruct c;
      repeat (destruct Hin as [Hin|Hin];
              [try discriminate; injection Hin as <-; reflexivity|]);
      contradiction.
Qed.

(** X19.  The condition dropdown of the edit dialog: a vertical-marker alert
    is offered ['crossing'] alone, a shape alert the four region conditions,
    any other alert (a line, or no tool type at all) the three crossing
    conditions; what shapes are offered is exactly what the others are not.
    When the alert's current condition is among the options offered, that
    option alone is marked selected, the dropdown shows it and saving
    without touching the dropdown keeps the condition.  When it is not, no
    option is marked, the dropdown shows its first option (['entering'] for
    a shape, ['crossing'] otherwise) and saving without touching the
    dropdown replaces the alert's condition by that one. *)
Theorem dialog_offers_conditions_by_tool_type tt c :
  (In c (map fst (AlertEditDialog.options tt)) <->
   match tt with
   | Some AlertEditDialog.vertical => c = crossing
   | Some AlertEditDialog.shape =>
       c = entering \/ c = exiting \/ c = inside \/ c = outside
   | _ => c = crossing \/ c = crossing_up \/ c = crossing_down
   end) /\
  (In c (map fst (AlertEditDialog.options (Some AlertEditDialog.shape))) <->
   ~ In c (map fst (AlertEditDialog.options (Some AlertEditDialog.line)))) /\
  (In c (map fst (AlertEditDialog.options tt)) ->
   AlertEditDialog.preselected tt c = [(c, toast_action c)] /\
   AlertEditDialog.conditionSelect_value tt c = Some c /\
   AlertEditDialog.saved_condition tt c = c) /\
  (~ In c (map fst (AlertEditDialog.options tt)) ->
   AlertEditDialog.preselected tt c = [] /\
   AlertEditDialog.conditionSelect_value tt c =
     Some (match tt with
           | Some AlertEditDialog.shape => entering
           | _ => crossing
           end) /\
   AlertEditDialog.saved_condition tt c =
     match tt with
     | Some AlertEditDialog.shape => entering
     | _ => crossing
     end /\
   AlertEditDialog.saved_condition tt c <> c).
Proof.
  split; [|split; [|split]].
  - destruct tt as [[| |]|]; destruct c; simpl;
      intuition discriminate.
  - destruct c; simpl; intuition discriminate.
  - destruct tt as [[| |]|]; destruct c; simpl;
      intuition discriminate.
  - destruct tt as [[| |]|]; destruct c; simpl; intros H;
      try (exfalso; apply H; tauto);
      repeat split; discriminate.
Qed.
